(** * The request handler of the endpoint server: coalescing queue and response cache

    A shallow embedding of [app/request_handler.py].

    The Python code runs on one asyncio event loop: control passes from one
    coroutine to another only at an [await] that really suspends
    ([asyncio.sleep], [Event.wait] on an unset event, the backend's
    [generate]).  Everything between two such points is one atomic step of
    the model.  The [threading.Lock] sections of the queue and of the cache
    contain no suspension point, so each is part of the step around it.
    Steps may follow one another in any order; the event loop allows some
    of these orders only (after a cache hit the consumer loop goes on into
    the next [get] without suspending), and what holds of every order of
    the model holds of those.

    Python objects that are shared and mutated ([ClientRequest],
    [ApiResponse]) live in two heaps, addressed by their allocation index;
    the queue's dict and the cache's dict hold addresses, as the Python dicts
    hold references.  Logging and the wall-clock [creation_time], which only
    feeds log lines, are left out. *)

From Stdlib Require Import ZArith String.
From stdpp Require Import gmap strings list fin_maps.


(** ** Strings as Python uses them here *)

(** [s[n:]] *)
Fixpoint slice_from (n : nat) (s : string) : string :=
  match n, s with
  | O, _ => s
  | S _, EmptyString => EmptyString
  | S n', String _ s' => slice_from n' s'
  end.

(** [s.startswith(p)] *)
Definition startswith (s p : string) : bool := String.prefix p s.

(** ** The inbound request (fastapi's [Request], as far as it is read) *)

Record Client := { host : string; port : nat }.

(** [_headers] keeps the header lines in order, names in lower case; a
    lookup returns the first line of that name. *)
Record Request := { _headers : list (string * string); client : Client }.

Fixpoint headers_get (name : string) (hs : list (string * string)) : option string :=
  match hs with
  | [] => None
  | (k, v) :: hs' => if String.eqb k name then Some v else headers_get name hs'
  end.

(** ** ApiResponse *)

(** Modelled from the spec: [ApiResponse] is declared in [app/model/api_models.py],
    which is not part of the sources at hand.  The spec gives it a status
    code, a text and the marker "served from cache". *)
Record ApiResponse := {
  status : Z;
  generated_text : string;
  is_cached_response : bool
}.

(** Modelled from the spec: [ApiResponse.set_is_cached_response], "lookups
    marking returned entries as cache-derived". *)
Definition set_is_cached_response (r : ApiResponse) : ApiResponse :=
  {| status := status r; generated_text := generated_text r; is_cached_response := true |}.

(** Modelled from the spec: [GeneratorBase.generate_default_api_response],
    "a pure constructor" of a response "carrying the error text and a
    client-error status". *)
Definition generate_default_api_response (message : string) (status_code : Z) : ApiResponse :=
  {| status := status_code; generated_text := message; is_cached_response := false |}.

(** ** ClientRequest.get_client_id *)

Definition get_client_id (request : Request) : string :=
  match headers_get "authorization" (_headers request) with
  | Some auth_header =>
      if startswith auth_header "Bearer "
      then slice_from 7 auth_header +:+ host (client request)
      else ""
  | None => ""
  end.

(** ** ClientRequestQueue *)

Section ClientRequestQueue.
(** The queue reads nothing of an item but its [id]. *)
Context {Item : Type} (item_id : Item → string).

(** [_lock] guards each method body as a whole; [_cache] is never read or
    written. *)
Record ClientRequestQueue := {
  _queue : list string;
  _client_items : gmap string Item
}.

Definition ClientRequestQueue_init : ClientRequestQueue :=
  {| _queue := []; _client_items := ∅ |}.

Definition put_or_exchange (item : Item) (q : ClientRequestQueue)
  : option Item * ClientRequestQueue :=
  let client_id := item_id item in
  match _client_items q !! client_id with
  | Some exchanged_item =>
      (Some exchanged_item,
       {| _queue := _queue q;
          _client_items := <[client_id := item]> (_client_items q) |})
  | None =>
      (None,
       {| _queue := _queue q ++ [client_id];
          _client_items := <[client_id := item]> (_client_items q) |})
  end.

(** One turn of the [while True] loop of [get]. *)
Inductive get_result :=
| Got (item : Item) (q : ClientRequestQueue)
| Sleep                                  (* queue empty: sleep, try again *)
| KeyError (q : ClientRequestQueue).     (* [_client_items.pop] of a missing key *)

Definition get (q : ClientRequestQueue) : get_result :=
  match _queue q with
  | [] => Sleep
  | client_id :: rest =>
      match _client_items q !! client_id with
      | Some item =>
          Got item {| _queue := rest; _client_items := delete client_id (_client_items q) |}
      | None => KeyError {| _queue := rest; _client_items := _client_items q |}
      end
  end.

(** *** Histories of a queue *)

Inductive QueueCall :=
| PutOrExchange (item : Item)
| GetTurn.

Inductive QueueEvent :=
| Submitted (item : Item)
| Taken (item : Item).

(** Runs the calls in order.  A [KeyError] ends the run, as it ends the
    task that called [get]. *)
Fixpoint queue_run (calls : list QueueCall) (q : ClientRequestQueue)
  : ClientRequestQueue * list QueueEvent :=
  match calls with
  | [] => (q, [])
  | PutOrExchange item :: calls' =>
      let '(q1, evs) := queue_run calls' (put_or_exchange item q).2 in
      (q1, Submitted item :: evs)
  | GetTurn :: calls' =>
      match get q with
      | Got item q1 =>
          let '(q2, evs) := queue_run calls' q1 in (q2, Taken item :: evs)
      | Sleep => queue_run calls' q
      | KeyError q1 => (q1, [])
      end
  end.

(** The spec's words, "the most recently submitted, not-yet-dequeued
    unit" of an identity, read off a history: the unit of the last
    submission for [i], unless a unit of [i] was taken after it.  [o] is
    the unit pending for [i] before the history starts. *)
Fixpoint latest_pending_from (o : option Item) (i : string) (hist : list QueueEvent)
  : option Item :=
  match hist with
  | [] => o
  | Submitted item :: hist' =>
      latest_pending_from (if decide (item_id item = i) then Some item else o) i hist'
  | Taken item :: hist' =>
      latest_pending_from (if decide (item_id item = i) then None else o) i hist'
  end.

Definition latest_pending (i : string) (hist : list QueueEvent) : option Item :=
  latest_pending_from None i hist.
End ClientRequestQueue.

Arguments ClientRequestQueue : clear implicits.
Arguments get_result : clear implicits.
Arguments QueueCall : clear implicits.
Arguments QueueEvent : clear implicits.

(** ** Objects on the heap *)

(** An address is the index at which the object was allocated. *)
Definition alloc {A : Type} (x : A) (heap : list A) : nat * list A :=
  (length heap, heap ++ [x]).

Inductive Consumer :=
| Polling                 (* in [queue.get()] *)
| Generating (a : nat)    (* holds the unit at [a]; suspended before or in [generate] *)
| Failed (a : nat)        (* [generate] raised an error that is not caught: the task is gone *)
| Broken.                 (* [get] raised [KeyError], or a dangling address *)

Section RequestHandler.
(** [RequestPayload] and its [key()] are declared in
    [app/model/api_models.py]: a payload type with a deterministic,
    comparable fingerprint. *)
Context {RequestPayload Key : Type} `{Countable Key} (key : RequestPayload → Key).

(** *** ClientRequest *)

Record ClientRequest := {
  client_id : string;                  (* [self.id]; [id] is taken in Rocq *)
  cnt : nat;
  request : Request;
  request_payload : RequestPayload;
  api_response : option nat;           (* address of an [ApiResponse], or [None] *)
  event : bool                         (* [asyncio.Event]: set or not *)
}.

Definition ClientRequest_init (request : Request) (request_payload : RequestPayload)
    (cnt : nat) : ClientRequest :=
  {| client_id := get_client_id request;
     cnt := cnt;
     request := request;
     request_payload := request_payload;
     api_response := None;
     event := false |}.

(** [client_request.api_response = api_response; client_request.event.set()] *)
Definition complete (api_response : nat) (u : ClientRequest) : ClientRequest :=
  {| client_id := client_id u;
     cnt := cnt u;
     request := request u;
     request_payload := request_payload u;
     api_response := Some api_response;
     event := true |}.

(** [item.id], read through the address. *)
Definition item_id (heap : list ClientRequest) (a : nat) : string :=
  from_option client_id "" (heap !! a).

(** *** ResponseCache *)

(** [_cache]: fingerprint to address of the stored [ApiResponse]. *)
Definition update (request_payload : RequestPayload) (api_response : nat)
    (_cache : gmap Key nat) : gmap Key nat :=
  <[key request_payload := api_response]> _cache.

(** [retrieve] marks the object it finds, in place, and returns its
    address. *)
Definition retrieve (request_payload : RequestPayload)
    (_cache : gmap Key nat) (responses : list ApiResponse)
  : option nat * list ApiResponse :=
  match _cache !! key request_payload with
  | Some api_response =>
      (Some api_response, alter set_is_cached_response api_response responses)
  | None => (None, responses)
  end.

(** *** RequestHandler *)

Record State := {
  queue : ClientRequestQueue nat;
  response_cache : gmap Key nat;
  handler_cnt : nat;                        (* [self.cnt] *)
  client_requests : list ClientRequest;     (* heap of [ClientRequest] objects *)
  api_responses : list ApiResponse;         (* heap of [ApiResponse] objects *)
  consumer : Consumer                       (* where [process_request_queue] stands *)
}.

Definition RequestHandler_init : State :=
  {| queue := ClientRequestQueue_init;
     response_cache := ∅;
     handler_cnt := 0;
     client_requests := [];
     api_responses := [];
     consumer := Polling |}.

(** What a step did, in the order it did it. *)
Inductive Event :=
| Created (a : nat)                       (* a [ClientRequest] was constructed *)
| Returned (a : nat) (l : nat)            (* [handle_request] returned [cached_response] *)
| Appended (i : string) (a : nat)         (* [_queue.append(client_id)] *)
| Exchanged (i : string) (a old : nat)    (* the pending unit of [i] was replaced *)
| Dequeued (i : string) (a : nat)         (* [get] returned the unit at [a] *)
| Invoked (p : RequestPayload)            (* [generator.generate] was called *)
| Completed (a : nat) (l : nat).          (* result slot written, event set *)

(** How a call of the backend's [generate] ends. *)
Inductive Outcome :=
| Generated (r : ApiResponse)
| GeneratorException (message : string)
| OtherException.

(** [handle_request], from its first line to its return on a cache hit or
    to its suspension in [event.wait()]. *)
Definition handle_request (request : Request) (request_payload : RequestPayload)
    (s : State) : State * list Event :=
  let local_cnt := S (handler_cnt s) in
  let '(client_request, requests1) :=
    alloc (ClientRequest_init request request_payload local_cnt) (client_requests s) in
  match retrieve request_payload (response_cache s) (api_responses s) with
  | (Some cached_response, responses1) =>
      ({| queue := queue s;
          response_cache := response_cache s;
          handler_cnt := local_cnt;
          client_requests := requests1;
          api_responses := responses1;
          consumer := consumer s |},
       [Created client_request; Returned client_request cached_response])
  | (None, responses1) =>
      let i := item_id requests1 client_request in
      match put_or_exchange (item_id requests1) client_request (queue s) with
      | (Some exchanged_client_request, queue1) =>
          let '(rejection, responses2) :=
            alloc (generate_default_api_response "" 429%Z) responses1 in
          ({| queue := queue1;
              response_cache := response_cache s;
              handler_cnt := local_cnt;
              client_requests := alter (complete rejection) exchanged_client_request requests1;
              api_responses := responses2;
              consumer := consumer s |},
           [Created client_request;
            Exchanged i client_request exchanged_client_request;
            Completed exchanged_client_request rejection])
      | (None, queue1) =>
          ({| queue := queue1;
              response_cache := response_cache s;
              handler_cnt := local_cnt;
              client_requests := requests1;
              api_responses := responses1;
              consumer := consumer s |},
           [Created client_request; Appended i client_request])
      end
  end.

(** What the caller suspended at [await client_request.event.wait()] gets
    when it runs again: nothing while the event is unset, then the content
    of the result slot. *)
Definition handle_request_resume (client_request : nat) (s : State) : option (option nat) :=
  match client_requests s !! client_request with
  | Some u => if event u then Some (api_response u) else None
  | None => None
  end.

(** [process_request_queue], one turn of [queue.get()] and, when it
    returns a unit, on to the cache lookup: a hit completes the unit at
    once, a miss suspends in [asyncio.sleep(0.005)]. *)
Definition consumer_poll (s : State) : State * list Event :=
  match consumer s with
  | Polling =>
      match get (queue s) with
      | Sleep => (s, [])
      | KeyError queue1 =>
          ({| queue := queue1;
              response_cache := response_cache s;
              handler_cnt := handler_cnt s;
              client_requests := client_requests s;
              api_responses := api_responses s;
              consumer := Broken |}, [])
      | Got client_request queue1 =>
          match client_requests s !! client_request with
          | None =>
              ({| queue := queue1;
                  response_cache := response_cache s;
                  handler_cnt := handler_cnt s;
                  client_requests := client_requests s;
                  api_responses := api_responses s;
                  consumer := Broken |}, [])
          | Some u =>
              match retrieve (request_payload u) (response_cache s) (api_responses s) with
              | (Some api_response, responses1) =>
                  ({| queue := queue1;
                      response_cache := response_cache s;
                      handler_cnt := handler_cnt s;
                      client_requests :=
                        alter (complete api_response) client_request (client_requests s);
                      api_responses := responses1;
                      consumer := Polling |},
                   [Dequeued (client_id u) client_request;
                    Completed client_request api_response])
              | (None, responses1) =>
                  ({| queue := queue1;
                      response_cache := response_cache s;
                      handler_cnt := handler_cnt s;
                      client_requests := client_requests s;
                      api_responses := responses1;
                      consumer := Generating client_request |},
                   [Dequeued (client_id u) client_request])
              end
          end
      end
  | _ => (s, [])
  end.

(** [process_request_queue], from the call of [generate] to the end of the
    loop body.  The backend is opaque: the step takes the way its call
    ends.  A response it returns is a new object.  Without a unit in hand,
    or with an address that holds none, there is no such step. *)
Definition consumer_generate (outcome : Outcome) (s : State) : State * list Event :=
  match consumer s with
  | Generating client_request =>
      match client_requests s !! client_request with
      | None => (s, [])
      | Some u =>
          match outcome with
          | Generated r =>
              let '(api_response, responses1) := alloc r (api_responses s) in
              ({| queue := queue s;
                  response_cache := update (request_payload u) api_response (response_cache s);
                  handler_cnt := handler_cnt s;
                  client_requests :=
                    alter (complete api_response) client_request (client_requests s);
                  api_responses := responses1;
                  consumer := Polling |},
               [Invoked (request_payload u); Completed client_request api_response])
          | GeneratorException message =>
              let '(api_response, responses1) :=
                alloc (generate_default_api_response message 400%Z) (api_responses s) in
              ({| queue := queue s;
                  response_cache := response_cache s;
                  handler_cnt := handler_cnt s;
                  client_requests :=
                    alter (complete api_response) client_request (client_requests s);
                  api_responses := responses1;
                  consumer := Polling |},
               [Invoked (request_payload u); Completed client_request api_response])
          | OtherException =>
              ({| queue := queue s;
                  response_cache := response_cache s;
                  handler_cnt := handler_cnt s;
                  client_requests := client_requests s;
                  api_responses := api_responses s;
                  consumer := Failed client_request |},
               [Invoked (request_payload u)])
          end
      end
  | _ => (s, [])
  end.

(** *** Runs *)

Inductive Action :=
| Handle (request : Request) (request_payload : RequestPayload)
| ConsumerPoll
| ConsumerGenerate (outcome : Outcome).

Definition step (act : Action) (s : State) : State * list Event :=
  match act with
  | Handle request request_payload => handle_request request request_payload s
  | ConsumerPoll => consumer_poll s
  | ConsumerGenerate outcome => consumer_generate outcome s
  end.

(** Runs the actions in order and collects the events. *)
Fixpoint run (acts : list Action) (s : State) : State * list Event :=
  match acts with
  | [] => (s, [])
  | act :: acts' =>
      let '(s1, evs1) := step act s in
      let '(s2, evs2) := run acts' s1 in
      (s2, evs1 ++ evs2)
  end.

Definition exec (acts : list Action) : State * list Event :=
  run acts RequestHandler_init.

(** How often the result slot of the unit at [a] was written. *)
Fixpoint completions (a : nat) (trace : list Event) : nat :=
  match trace with
  | [] => 0
  | Completed a' _ :: trace' =>
      if decide (a' = a) then S (completions a trace') else completions a trace'
  | _ :: trace' => completions a trace'
  end.

End RequestHandler.

(** ** Well-formed queues *)

Section QueueInvariant.
Context {Item : Type} (item_id : Item → string).

(** The deque holds each identity at most once, the dict has an entry for
    exactly the identities of the deque, and each entry is filed under
    the identity of its item. *)
Definition queue_wf (q : ClientRequestQueue Item) : Prop :=
  NoDup (_queue q) ∧
  (∀ i, i ∈ _queue q ↔ is_Some (_client_items q !! i)) ∧
  (∀ i item, _client_items q !! i = Some item → item_id item = i).
End QueueInvariant.

(** ** Where a unit stands *)

Section Invariant.
Context {RequestPayload Key : Type} `{Countable Key} (key : RequestPayload → Key).
Implicit Types (s : State (RequestPayload:=RequestPayload) (Key:=Key)).
Implicit Types (heap : list (ClientRequest (RequestPayload:=RequestPayload))).
Implicit Types (trace : list (Event (RequestPayload:=RequestPayload))).

(** The unit at [a] is the queue's entry of some identity. *)
Definition pending (q : ClientRequestQueue nat) (a : nat) : Prop :=
  ∃ i, _client_items q !! i = Some a.

(** The consumer loop took the unit at [a] and has not completed it. *)
Definition held (c : Consumer) (a : nat) : Prop :=
  c = Generating a ∨ c = Failed a.

(** The unit at [a] exists, its slot is empty and its event is unset. *)
Definition unset heap (a : nat) : Prop :=
  ∃ u, heap !! a = Some u ∧ api_response u = None ∧ event u = false.

(** The unit at [a] has the response at [l] in its slot and its event is
    set. *)
Definition completed_with heap (a l : nat) : Prop :=
  ∃ u, heap !! a = Some u ∧ api_response u = Some l ∧ event u = true.

(** 1 if the event of the unit at [a] is set, 0 if not. *)
Definition fired heap (a : nat) : nat :=
  match heap !! a with
  | Some u => if event u then 1 else 0
  | None => 0
  end.

(** The unit at [a] was handed to [put_or_exchange]. *)
Definition submitted (a : nat) trace : Prop :=
  ∃ i, Appended i a ∈ trace ∨ ∃ old, Exchanged i a old ∈ trace.

(** What holds of every state the handler reaches. *)
Definition Inv s : Prop :=
  queue_wf (item_id (client_requests s)) (queue s) ∧
  (∀ a, pending (queue s) a → unset (client_requests s) a) ∧
  (∀ a, held (consumer s) a →
        unset (client_requests s) a ∧ ¬ pending (queue s) a) ∧
  consumer s ≠ Broken ∧
  (∀ a u, consumer s = Generating a → client_requests s !! a = Some u →
          response_cache s !! key (request_payload u) = None) ∧
  (∀ k l, response_cache s !! k = Some l → l < length (api_responses s)).

(** What holds of a reached state and the trace that led to it: a slot
    was written once if the event is set and never otherwise; a submitted
    unit is completed, pending or held; a unit whose call returned from
    the cache is none of the three. *)
Definition TraceInv s trace : Prop :=
  (∀ a, completions a trace = fired (client_requests s) a) ∧
  (∀ a, submitted a trace →
        (∃ l, completed_with (client_requests s) a l) ∨
        pending (queue s) a ∨ held (consumer s) a) ∧
  (∀ a l, Returned a l ∈ trace →
          unset (client_requests s) a ∧ ¬ pending (queue s) a ∧ ¬ held (consumer s) a).
End Invariant.

(** ** Letting the consumer loop run *)

(** [n] turns of the consumer loop, each a turn of [get] and, if it is
    called, a backend call that ends in [outcome]. *)
Fixpoint drain {RequestPayload : Type} (outcome : Outcome) (n : nat)
  : list (Action (RequestPayload:=RequestPayload)) :=
  match n with
  | O => []
  | S n' => ConsumerPoll :: ConsumerGenerate outcome :: drain outcome n'
  end.

(** ** Order in the deque *)

(** [A] is in the deque and [B] is not in front of it. *)
Definition precedes (A B : string) (fifo : list string) : Prop :=
  ∃ front back, fifo = front ++ A :: back ∧ B ∉ front.

(** ** A handler to run *)

(** Payloads that are their own fingerprint. *)
Definition fingerprint (p : string) : string := p.

Definition bearer (credentials remote : string) : Request :=
  {| _headers := [("authorization", "Bearer " +:+ credentials)];
     client := {| host := remote; port := 0 |} |}.

Definition alice : Request := bearer "alice" "10.0.0.1".
Definition bob : Request := bearer "bob" "10.0.0.2".

Definition anonymous : Request :=
  {| _headers := [("accept", "*/*")]; client := {| host := "10.0.0.3"; port := 0 |} |}.

Definition basic : Request :=
  {| _headers := [("authorization", "Basic dXNlcg==")];
     client := {| host := "10.0.0.4"; port := 0 |} |}.

Definition answer : ApiResponse :=
  {| status := 200; generated_text := "done"; is_cached_response := false |}.

(** One call served by the backend, its response cached. *)
Definition served_once : list (Action (RequestPayload:=string)) :=
  [Handle alice "p"; ConsumerPoll; ConsumerGenerate (Generated answer)].

(** ** Counting calls *)

(** How many of the actions are calls of [handle_request]. *)
Fixpoint handled {RequestPayload : Type}
    (acts : list (Action (RequestPayload:=RequestPayload))) : nat :=
  match acts with
  | [] => 0
  | Handle _ _ :: acts' => S (handled acts')
  | _ :: acts' => handled acts'
  end.

(** ** Counting events *)

Section Counting.
Context {RequestPayload : Type}.

Definition is_appended (e : Event (RequestPayload:=RequestPayload)) : bool :=
  match e with Appended _ _ => true | _ => false end.

Definition is_dequeued (e : Event (RequestPayload:=RequestPayload)) : bool :=
  match e with Dequeued _ _ => true | _ => false end.

Definition is_invoked (e : Event (RequestPayload:=RequestPayload)) : bool :=
  match e with Invoked _ => true | _ => false end.

(** How many events of a kind a trace has. *)
Fixpoint count_events (kind : Event (RequestPayload:=RequestPayload) → bool)
    (trace : list (Event (RequestPayload:=RequestPayload))) : nat :=
  match trace with
  | [] => 0
  | e :: trace' => (if kind e then 1 else 0) + count_events kind trace'
  end.

(** 1 while the consumer loop holds a unit for which the backend is still
    to answer. *)
Definition generating (c : Consumer) : nat :=
  match c with Generating _ => 1 | _ => 0 end.
End Counting.

(** ** Calls in a row *)

(** One call of [handle_request] after the other, none of them resumed and
    no turn of the consumer loop in between. *)
Definition calls {RequestPayload : Type} (rqs : list (Request * RequestPayload))
  : list (Action (RequestPayload:=RequestPayload)) :=
  (λ c, Handle c.1 c.2) <$> rqs.

(** ** More callers *)

(** A second caller without credentials, on another host. *)
Definition visitor : Request :=
  {| _headers := []; client := {| host := "10.0.0.9"; port := 0 |} |}.

(** Two callers whose credentials and hosts differ and whose identities do
    not. *)
Definition carol : Request := bearer "tok1" "0.0.0.1".
Definition dave : Request := bearer "tok" "10.0.0.1".

(** * Properties *)

(** ** Identity of a client *)

Lemma startswith_app (p s : string) : startswith (p +:+ s) p = true.
Proof.
  unfold startswith. induction p as [|c p IH]; simpl.
  - by destruct s.
  - destruct (Ascii.ascii_dec c c) as [_|Hne]; [exact IH | by destruct Hne].
Qed.

Lemma slice_from_app (p s : string) : slice_from (String.length p) (p +:+ s) = s.
Proof. induction p as [|c p IH]; simpl; [done | exact IH]. Qed.

(** C9: a request without an [authorization] header has the empty identity,
    and so has one whose header is not a Bearer credential; a request with
    the header [Bearer c] has the identity [c] followed by the remote host. *)
Theorem get_client_id_credentials (request : Request) :
  (headers_get "authorization" (_headers request) = None →
   get_client_id request = "") ∧
  (∀ credentials : string,
     headers_get "authorization" (_headers request) = Some ("Bearer " +:+ credentials) →
     get_client_id request = credentials +:+ host (client request)) ∧
  (∀ auth_header : string,
     headers_get "authorization" (_headers request) = Some auth_header →
     startswith auth_header "Bearer " = false →
     get_client_id request = "").
Proof.
  unfold get_client_id. split; [|split].
  - by intros ->.
  - intros credentials ->.
    rewrite startswith_app.
    exact (f_equal (λ c, c +:+ host (client request)) (slice_from_app "Bearer " credentials)).
  - by intros auth_header -> ->.
Qed.

(** ** The coalescing queue *)

Section QueueProperties.
Context {Item : Type} (item_id : Item → string).
Implicit Types (q : ClientRequestQueue Item) (item : Item) (i : string).

Lemma queue_wf_init : queue_wf item_id ClientRequestQueue_init.
Proof.
  split; [constructor | split].
  - intros i. simpl. rewrite lookup_empty. split.
    + by intros ?%elem_of_nil.
    + by intros [? ?].
  - intros i item. simpl. by rewrite lookup_empty.
Qed.

Lemma put_or_exchange_exchanged q item :
  (put_or_exchange item_id item q).1 = _client_items q !! item_id item.
Proof. unfold put_or_exchange. by destruct (_client_items q !! item_id item). Qed.

Lemma put_or_exchange_items q item :
  _client_items (put_or_exchange item_id item q).2
  = <[item_id item := item]> (_client_items q).
Proof. unfold put_or_exchange. by destruct (_client_items q !! item_id item). Qed.

Lemma put_or_exchange_queue q item :
  _queue (put_or_exchange item_id item q).2
  = match _client_items q !! item_id item with
    | Some _ => _queue q
    | None => _queue q ++ [item_id item]
    end.
Proof. unfold put_or_exchange. by destruct (_client_items q !! item_id item). Qed.

Lemma put_or_exchange_wf q item :
  queue_wf item_id q → queue_wf item_id (put_or_exchange item_id item q).2.
Proof.
  intros (Hnd & Hdom & Hid).
  unfold queue_wf.
  rewrite put_or_exchange_items, put_or_exchange_queue.
  destruct (_client_items q !! item_id item) as [old|] eqn:Hold.
  - split; [done | split].
    + intros i. rewrite Hdom. destruct (decide (item_id item = i)) as [<-|Hne].
      * rewrite lookup_insert_eq, Hold. split; eauto.
      * by rewrite lookup_insert_ne.
    + intros i x. destruct (decide (item_id item = i)) as [<-|Hne].
      * rewrite lookup_insert_eq. by intros [= <-].
      * rewrite lookup_insert_ne by done. apply Hid.
  - assert (item_id item ∉ _queue q) as Hfresh.
    { rewrite Hdom, Hold. by intros [? ?]. }
    split; [|split].
    + apply NoDup_app. split; [done | split].
      * intros i Hi ->%list_elem_of_singleton. by apply Hfresh.
      * apply NoDup_singleton.
    + intros i. rewrite elem_of_app, list_elem_of_singleton, Hdom.
      destruct (decide (item_id item = i)) as [<-|Hne].
      * rewrite lookup_insert_eq. split; eauto.
      * rewrite lookup_insert_ne by done. split; [|by left].
        intros [?| ->]; [done | by destruct Hne].
    + intros i x. destruct (decide (item_id item = i)) as [<-|Hne].
      * rewrite lookup_insert_eq. by intros [= <-].
      * rewrite lookup_insert_ne by done. apply Hid.
Qed.

(** On a well-formed queue a turn of [get] sleeps on the empty deque and
    otherwise hands out the unit of the first identity. *)
Lemma get_wf q :
  queue_wf item_id q →
  (_queue q = [] ∧ get q = Sleep) ∨
  (∃ rest item,
     _queue q = item_id item :: rest ∧
     _client_items q !! item_id item = Some item ∧
     get q = Got item {| _queue := rest;
                         _client_items := delete (item_id item) (_client_items q) |} ∧
     queue_wf item_id {| _queue := rest;
                         _client_items := delete (item_id item) (_client_items q) |}).
Proof.
  intros (Hnd & Hdom & Hid). unfold get.
  destruct (_queue q) as [|i rest] eqn:Hq; [by left | right].
  destruct (proj1 (Hdom i)) as [item Hitem]; [by left|].
  pose proof (Hid _ _ Hitem) as <-.
  exists rest, item. rewrite Hitem. do 3 (split; [done|]).
  apply NoDup_cons in Hnd as [Hhead Hnd].
  split; [done | split]; simpl.
  - intros j. destruct (decide (item_id item = j)) as [<-|Hne].
    + rewrite lookup_delete_eq. split; [done | by intros [? ?]].
    + rewrite lookup_delete_ne by done. rewrite <- Hdom, elem_of_cons.
      split; [by right | by intros [->|?]].
  - intros j x. destruct (decide (item_id item = j)) as [<-|Hne].
    + by rewrite lookup_delete_eq.
    + rewrite lookup_delete_ne by done. apply Hid.
Qed.

Lemma queue_run_wf calls : ∀ q,
  queue_wf item_id q →
  queue_wf item_id (queue_run item_id calls q).1 ∧
  ∀ i, _client_items (queue_run item_id calls q).1 !! i
       = latest_pending_from item_id (_client_items q !! i) i (queue_run item_id calls q).2.
Proof.
  induction calls as [|[item|] calls IH]; intros q Hwf; simpl.
  - done.
  - destruct (IH _ (put_or_exchange_wf q item Hwf)) as [Hwf' Hlast].
    destruct (queue_run item_id calls (put_or_exchange item_id item q).2)
      as [q1 evs] eqn:Hrun.
    simpl in *. split; [done|]. intros i. rewrite Hlast, put_or_exchange_items.
    destruct (decide (item_id item = i)) as [<-|Hne].
    + by rewrite lookup_insert_eq.
    + by rewrite lookup_insert_ne.
  - destruct (get_wf q Hwf) as [[_ ->]|(rest & item & _ & Hitem & -> & Hwf1)].
    + by apply IH.
    + destruct (IH _ Hwf1) as [Hwf' Hlast].
      destruct (queue_run item_id calls _) as [q2 evs] eqn:Hrun.
      simpl in *. split; [done|]. intros i. rewrite Hlast.
      destruct (decide (item_id item = i)) as [<-|Hne].
      * by rewrite lookup_delete_eq.
      * by rewrite lookup_delete_ne.
Qed.

(** C3: in every state the queue reaches from the empty one, no identity
    is twice in the deque; the identities of the deque are those with an
    entry in the dict, and the entry is the most recently submitted unit
    of the identity that was not yet taken; a submission for an identity
    that has an entry hands that entry back, files the new unit and leaves
    the deque as it is; a turn of [get] either finds the deque empty and
    sleeps or returns the unit filed under the first identity, and never
    fails on a missing entry. *)
Theorem coalescing_queue_invariant (calls : list (QueueCall Item)) :
  let q := (queue_run item_id calls ClientRequestQueue_init).1 in
  let hist := (queue_run item_id calls ClientRequestQueue_init).2 in
  NoDup (_queue q) ∧
  (∀ i, i ∈ _queue q ↔ is_Some (_client_items q !! i)) ∧
  (∀ i, _client_items q !! i = latest_pending item_id i hist) ∧
  (∀ item old,
     _client_items q !! item_id item = Some old →
     put_or_exchange item_id item q
     = (Some old, {| _queue := _queue q;
                     _client_items := <[item_id item := item]> (_client_items q) |})) ∧
  ((_queue q = [] ∧ get q = Sleep) ∨
   (∃ i rest item,
      _queue q = i :: rest ∧ _client_items q !! i = Some item ∧ item_id item = i ∧
      get q = Got item {| _queue := rest; _client_items := delete i (_client_items q) |})).
Proof.
  intros q hist.
  destruct (queue_run_wf calls _ queue_wf_init) as [Hwf Hlast].
  fold q in Hwf, Hlast. fold hist in Hlast.
  pose proof Hwf as (Hnd & Hdom & Hid).
  split; [done | split; [done | split; [|split]]].
  - intros i. rewrite Hlast. simpl. by rewrite lookup_empty.
  - intros item old Hold. unfold put_or_exchange. by rewrite Hold.
  - destruct (get_wf q Hwf) as [?|(rest & item & Hq & Hitem & Hget & _)]; [by left|].
    right. by exists (item_id item), rest, item.
Qed.
End QueueProperties.

(** ** The request handler *)

(** Membership in an event list that is written out *)
Ltac in_events :=
  repeat first [apply list_elem_of_here | apply list_elem_of_further].
Ltac not_in_events :=
  let Hin := fresh in
  intros Hin; set_unfold in Hin; repeat (destruct Hin as [Hin|Hin]; [done|]); done.

Section HandlerProperties.
Context {RequestPayload Key : Type} `{Countable Key} (key : RequestPayload → Key).
Implicit Types (s : State (RequestPayload:=RequestPayload) (Key:=Key)).
Implicit Types (heap : list (ClientRequest (RequestPayload:=RequestPayload))).
Implicit Types (trace : list (Event (RequestPayload:=RequestPayload))).

Lemma completions_app a trace1 trace2 :
  completions a (trace1 ++ trace2) = completions a trace1 + completions a trace2.
Proof.
  induction trace1 as [|[] trace1 IH]; simpl; try done.
  case_decide; simpl; by rewrite IH.
Qed.

Lemma item_id_snoc heap u a : a < length heap → item_id (heap ++ [u]) a = item_id heap a.
Proof. intros Ha. unfold item_id. by rewrite lookup_app_l. Qed.

Lemma item_id_complete heap l a b :
  item_id (alter (complete l) a heap) b = item_id heap b.
Proof.
  unfold item_id. rewrite list_lookup_alter. case_decide as Hab; [subst b|done].
  by destruct (heap !! a).
Qed.

Lemma queue_wf_ext (f g : nat → string) (q : ClientRequestQueue nat) :
  (∀ i a, _client_items q !! i = Some a → g a = f a) →
  queue_wf f q → queue_wf g q.
Proof.
  intros Hfg (Hnd & Hdom & Hid). split; [done | split; [done|]].
  intros i a Ha. rewrite (Hfg _ _ Ha). by apply Hid.
Qed.

Lemma retrieve_result p (c : gmap Key nat) responses :
  (retrieve key p c responses).1 = c !! key p ∧
  length (retrieve key p c responses).2 = length responses.
Proof.
  unfold retrieve. destruct (c !! key p); simpl; [|done].
  by rewrite length_alter.
Qed.

(** Units on the heap when another is allocated or one is completed *)

Lemma unset_lt heap a : unset heap a → a < length heap.
Proof. intros (u & Hu & _). by eapply lookup_lt_Some. Qed.

Lemma unset_snoc heap u a : unset heap a → unset (heap ++ [u]) a.
Proof.
  intros (v & Hv & ?). exists v. split; [|done].
  rewrite lookup_app_l; [done | by eapply lookup_lt_Some].
Qed.

Lemma unset_new heap u :
  api_response u = None → event u = false → unset (heap ++ [u]) (length heap).
Proof. intros ??. exists u. by rewrite list_lookup_middle. Qed.

Lemma unset_complete_ne heap l a b :
  a ≠ b → unset heap b → unset (alter (complete l) a heap) b.
Proof. intros Hab (v & Hv & ?). exists v. by rewrite list_lookup_alter_ne. Qed.

Lemma completed_snoc heap u a l :
  completed_with heap a l → completed_with (heap ++ [u]) a l.
Proof.
  intros (v & Hv & ?). exists v. split; [|done].
  rewrite lookup_app_l; [done | by eapply lookup_lt_Some].
Qed.

Lemma completed_complete heap l a : unset heap a → completed_with (alter (complete l) a heap) a l.
Proof.
  intros (v & Hv & _). exists (complete l v).
  by rewrite list_lookup_alter_eq, Hv.
Qed.

Lemma completed_complete_ne heap l a b l' :
  a ≠ b → completed_with heap b l' → completed_with (alter (complete l) a heap) b l'.
Proof. intros Hab (v & Hv & ?). exists v. by rewrite list_lookup_alter_ne. Qed.

Lemma fired_snoc heap u a :
  event u = false → fired (heap ++ [u]) a = fired heap a.
Proof.
  intros Hu. unfold fired. destruct (decide (a < length heap)) as [Hlt|Hge].
  - by rewrite lookup_app_l.
  - rewrite (lookup_ge_None_2 heap a) by lia.
    destruct (decide (a = length heap)) as [->|Hne].
    + by rewrite list_lookup_middle, Hu.
    + rewrite lookup_ge_None_2; [done|]. rewrite length_app. simpl. lia.
Qed.

Lemma fired_complete heap l a b :
  unset heap a →
  fired (alter (complete l) a heap) b
  = if decide (a = b) then S (fired heap b) else fired heap b.
Proof.
  intros (v & Hv & _ & Hev). unfold fired. rewrite list_lookup_alter.
  case_decide as Hab; [subst b|done]. by rewrite Hv; simpl; rewrite Hev.
Qed.

Lemma pending_put_or_exchange (f : nat → string) item (q : ClientRequestQueue nat) :
  queue_wf f q →
  pending (put_or_exchange f item q).2 item ∧
  (∀ a, pending (put_or_exchange f item q).2 a →
        a = item ∨ (pending q a ∧ (put_or_exchange f item q).1 ≠ Some a)) ∧
  (∀ a, pending q a →
        (put_or_exchange f item q).1 = Some a ∨ pending (put_or_exchange f item q).2 a).
Proof.
  intros (_ & _ & Hid). unfold pending.
  rewrite put_or_exchange_items, put_or_exchange_exchanged.
  split; [|split].
  - exists (f item). by rewrite lookup_insert_eq.
  - intros a [i Ha]. destruct (decide (f item = i)) as [<-|Hne].
    + rewrite lookup_insert_eq in Ha. left. congruence.
    + rewrite lookup_insert_ne in Ha by done. right. split; [by exists i|].
      intros Hold. apply Hne. by rewrite <- (Hid _ _ Ha), <- (Hid _ _ Hold).
  - intros a [i Ha]. destruct (decide (f item = i)) as [<-|Hne]; [by left|].
    right. exists i. by rewrite lookup_insert_ne.
Qed.

Lemma pending_get (f : nat → string) item (q q1 : ClientRequestQueue nat) :
  queue_wf f q → get q = Got item q1 →
  pending q item ∧ ∀ a, pending q1 a ↔ pending q a ∧ a ≠ item.
Proof.
  intros Hwf Hget.
  destruct (get_wf f q Hwf) as [[_ Hs]|(rest & item' & _ & Hitem & Hg & _)]; [congruence|].
  rewrite Hg in Hget. injection Hget as <- <-.
  destruct Hwf as (_ & _ & Hid). unfold pending; simpl.
  split; [by eexists|]. intros a. split.
  - intros [i Ha]. destruct (decide (f item' = i)) as [<-|Hne].
    + by rewrite lookup_delete_eq in Ha.
    + rewrite lookup_delete_ne in Ha by done. split; [by exists i|].
      intros ->. by apply Hne, Hid.
  - intros [[i Ha] Hne]. exists i. rewrite lookup_delete_ne; [done|].
    intros <-. congruence.
Qed.

Lemma handle_request_inv request p s trace :
  Inv key s → TraceInv s trace →
  Inv key (handle_request key request p s).1 ∧
  TraceInv (handle_request key request p s).1 (trace ++ (handle_request key request p s).2).
Proof.
  intros (Hwf & Hpend & Hheld & Hbroken & Hmiss & Hcache) (Hcount & Hsub & Hret).
  assert (Hlt : ∀ a, pending (queue s) a → a < length (client_requests s)).
  { intros a ?%Hpend. by apply unset_lt. }
  assert (Hlt' : ∀ a, held (consumer s) a → a < length (client_requests s)).
  { intros a [? _]%Hheld. by apply unset_lt. }
  unfold handle_request, alloc.
  destruct (retrieve_result p (response_cache s) (api_responses s)) as [Hr1 Hr2].
  destruct (retrieve key p (response_cache s) (api_responses s)) as [o responses1].
  simpl in Hr1, Hr2. subst o.
  set (new := ClientRequest_init request p (S (handler_cnt s))).
  assert (Hwf1 : queue_wf (item_id (client_requests s ++ [new])) (queue s)).
  { eapply queue_wf_ext; [|done]. intros i a Ha. apply item_id_snoc, Hlt. by exists i. }
  destruct (response_cache s !! key p) as [l|] eqn:Hl.
  - simpl. split.
    + split; [done|]. split; [|split; [|split; [done|split]]]; simpl.
      * intros a Ha. by apply unset_snoc, Hpend.
      * intros a [Ha Hnp]%Hheld. split; [by apply unset_snoc | done].
      * intros a u Hc Hu. apply Hmiss with a; [done|].
        rewrite lookup_app_l in Hu; [done|]. apply Hlt'. by left.
      * intros k l' ?%Hcache. lia.
    + split; [|split]; simpl.
      * intros a. rewrite completions_app, fired_snoc, Hcount by done. simpl. lia.
      * intros a [i Ha]. set_unfold in Ha.
        destruct (Hsub a) as [[l' Hl']|Hx]; [| |by right].
        { exists i. destruct Ha as [[?|[?|[?|[]]]]|[old [?|[?|[?|[]]]]]]; try done; eauto. }
        left. exists l'. by apply completed_snoc.
      * intros a l' Ha. set_unfold in Ha.
        destruct Ha as [Ha|[?|[[= -> ->]|[]]]]; [|done|].
        -- destruct (Hret _ _ Ha) as (? & ? & ?). split; [by apply unset_snoc | done].
        -- split; [by apply unset_new|]. split; [intros ?%Hlt | intros ?%Hlt']; lia.
  - destruct (pending_put_or_exchange _ (length (client_requests s)) _ Hwf1)
      as (Hp1 & Hp2 & Hp3).
    pose proof (put_or_exchange_wf _ _ (length (client_requests s)) Hwf1) as Hwf2.
    pose proof (put_or_exchange_exchanged (item_id (client_requests s ++ [new]))
                  (queue s) (length (client_requests s))) as Hex.
    destruct (put_or_exchange _ _ _) as [o queue1]. simpl in Hp1, Hp2, Hp3, Hwf2, Hex.
    assert (Hnew : unset (client_requests s ++ [new]) (length (client_requests s))).
    { by apply unset_new. }
    destruct o as [old|]; simpl.
    + assert (Hold : pending (queue s) old) by (by eexists).
      pose proof (Hpend _ Hold) as Hunset. pose proof (Hlt _ Hold) as Hlto.
      assert (Hdone : ∀ a l, completed_with (client_requests s) a l → old ≠ a).
      { intros a l (u & Hu & _ & Hev) ->. destruct Hunset as (u' & Hu' & _ & Hev').
        congruence. }
      split.
      * split; [|split; [|split; [|split; [done|split]]]]; simpl.
        -- eapply queue_wf_ext; [|exact Hwf2]. intros. apply item_id_complete.
        -- intros a [->|[Ha Hne]]%Hp2; apply unset_complete_ne; try done; try lia.
           ++ congruence.
           ++ by apply unset_snoc, Hpend.
        -- intros a Ha. destruct (Hheld _ Ha) as [Hu Hnp]. split.
           ++ apply unset_complete_ne; [by intros ->|by apply unset_snoc].
           ++ intros [->|[? _]]%Hp2; [|done]. apply Hlt' in Ha. lia.
        -- intros a u Hc Hu. apply Hmiss with a; [done|].
           assert (held (consumer s) a) as Ha by (by left).
           rewrite list_lookup_alter_ne in Hu.
           ++ rewrite lookup_app_l in Hu; [done | by apply Hlt'].
           ++ intros ->. by apply Hheld in Ha as [_ []].
        -- intros k l' ?%Hcache. rewrite length_app. lia.
      * split; [|split]; simpl.
        -- intros a. rewrite completions_app, fired_complete by (by apply unset_snoc).
           rewrite fired_snoc, Hcount by done. simpl. case_decide; lia.
        -- intros a [i Ha]. set_unfold in Ha.
           assert (submitted a trace ∨ a = length (client_requests s)) as [Hs| ->].
           { destruct Ha as [[?|[?|[?|[?|[]]]]]|[old' [?|[?|[?|[?|[]]]]]]];
               try done; [left; exists i; eauto | left; exists i; eauto | right; congruence]. }
           ++ destruct (Hsub _ Hs) as [[l' Hl']|[Hp|Hh]].
              ** left. exists l'. eapply completed_complete_ne; [by eapply Hdone|].
                 by apply completed_snoc.
              ** destruct (Hp3 _ Hp) as [[= <-]|?]; [|by right; left].
                 left. eexists. by apply completed_complete, unset_snoc.
              ** by right; right.
           ++ by right; left.
        -- intros a l' Ha. set_unfold in Ha.
           destruct Ha as [Ha|[?|[?|[?|[]]]]]; try done.
           destruct (Hret _ _ Ha) as (Hu & Hnp & Hnh).
           split; [|split; [|done]].
           ++ apply unset_complete_ne; [by intros ->|by apply unset_snoc].
           ++ intros [->|[? _]]%Hp2; [|done]. apply unset_lt in Hu. lia.
    + split.
      * split; [done|split; [|split; [|split; [done|split]]]]; simpl.
        -- intros a [->|[Ha _]]%Hp2; [done|]. by apply unset_snoc, Hpend.
        -- intros a Ha. destruct (Hheld _ Ha) as [Hu Hnp]. split; [by apply unset_snoc|].
           intros [->|[? _]]%Hp2; [|done]. apply Hlt' in Ha. lia.
        -- intros a u Hc Hu. apply Hmiss with a; [done|].
           rewrite lookup_app_l in Hu; [done|]. apply Hlt'. by left.
        -- intros k l' ?%Hcache. lia.
      * split; [|split]; simpl.
        -- intros a. rewrite completions_app, fired_snoc, Hcount by done. simpl. lia.
        -- intros a [i Ha]. set_unfold in Ha.
           assert (submitted a trace ∨ a = length (client_requests s)) as [Hs| ->].
           { destruct Ha as [[?|[?|[?|[]]]]|[old' [?|[?|[?|[]]]]]];
               try done; [left; exists i; eauto | right; congruence | left; exists i; eauto]. }
           ++ destruct (Hsub _ Hs) as [[l' Hl']|[Hp|Hh]].
              ** left. exists l'. by apply completed_snoc.
              ** destruct (Hp3 _ Hp) as [[=]|?]. by right; left.
              ** by right; right.
           ++ by right; left.
        -- intros a l' Ha. set_unfold in Ha.
           destruct Ha as [Ha|[?|[?|[]]]]; try done.
           destruct (Hret _ _ Ha) as (Hu & Hnp & Hnh).
           split; [by apply unset_snoc|split; [|done]].
           intros [->|[? _]]%Hp2; [|done]. apply unset_lt in Hu. lia.
Qed.

Lemma consumer_poll_inv s trace :
  Inv key s → TraceInv s trace →
  Inv key (consumer_poll key s).1 ∧
  TraceInv (consumer_poll key s).1 (trace ++ (consumer_poll key s).2).
Proof.
  intros HI HT. pose proof HI as (Hwf & Hpend & Hheld & Hbroken & Hmiss & Hcache).
  pose proof HT as (Hcount & Hsub & Hret).
  unfold consumer_poll.
  destruct (consumer s) eqn:Hc; simpl; rewrite ?app_nil_r; try done.
  destruct (get_wf _ _ Hwf) as [[_ Hs]|(rest & a & Hq & Hitem & Hg & Hwf1)].
  { rewrite Hs. simpl. by rewrite app_nil_r. }
  destruct (pending_get _ _ _ _ Hwf Hg) as [Hpa Hp].
  rewrite Hg. set (queue1 := {| _queue := rest |}) in *.
  destruct (Hpend _ Hpa) as (u & Hu & Hslot & Hev). rewrite Hu.
  assert (Hunset : unset (client_requests s) a) by (by exists u).
  destruct (retrieve_result (request_payload u) (response_cache s) (api_responses s))
    as [Hr1 Hr2].
  destruct (retrieve key _ _ _) as [o responses1]. simpl in Hr1, Hr2. subst o.
  assert (Hdone : ∀ b l, completed_with (client_requests s) b l → a ≠ b).
  { intros b l (v & Hv & _ & Hev') ->. congruence. }
  destruct (response_cache s !! key (request_payload u)) as [l|] eqn:Hl; simpl.
  - split.
    + split; [|split; [|split; [|split; [done|split]]]]; simpl; try done.
      * eapply queue_wf_ext; [|exact Hwf1]. intros. apply item_id_complete.
      * intros b [Hb Hne]%Hp. apply unset_complete_ne; [done|]. by apply Hpend.
      * intros b [?|?]; done.
      * intros k l' ?%Hcache. lia.
    + split; [|split]; simpl.
      * intros b. rewrite completions_app, fired_complete, Hcount by done.
        simpl. case_decide; lia.
      * intros b [i Hb]. set_unfold in Hb.
        assert (submitted b trace) as Hs.
        { destruct Hb as [[?|[?|[?|[]]]]|[old' [?|[?|[?|[]]]]]]; try done; exists i; eauto. }
        destruct (Hsub _ Hs) as [[l' Hl']|[Hpb|Hh]].
        -- left. exists l'. eapply completed_complete_ne; [by eapply Hdone|done].
        -- destruct (decide (b = a)) as [->|Hne].
           ++ left. eexists. by apply completed_complete.
           ++ right; left. by apply Hp.
        -- by destruct Hh.
      * intros b l' Hb. set_unfold in Hb.
        destruct Hb as [Hb|[?|[?|[]]]]; try done.
        destruct (Hret _ _ Hb) as (Hub & Hnp & Hnh).
        split; [|split].
        -- apply unset_complete_ne; [by intros ->|done].
        -- by intros [? _]%Hp.
        -- by intros [?|?].
  - split.
    + split; [|split; [|split; [|split; [done|split]]]]; simpl; try done.
      * intros b [Hb Hne]%Hp. by apply Hpend.
      * intros b [[= <-]|?]; [|done]. split; [done|]. by intros [_ ?]%Hp.
      * intros b v [= <-] Hv. congruence.
      * intros k l' ?%Hcache. lia.
    + split; [|split]; simpl.
      * intros b. rewrite completions_app, Hcount. simpl. lia.
      * intros b [i Hb]. set_unfold in Hb.
        assert (submitted b trace) as Hs.
        { destruct Hb as [[?|[?|[]]]|[old' [?|[?|[]]]]]; try done; exists i; eauto. }
        destruct (Hsub _ Hs) as [[l' Hl']|[Hpb|Hh]].
        -- left. by exists l'.
        -- destruct (decide (b = a)) as [->|Hne].
           ++ right; right. by left.
           ++ right; left. by apply Hp.
        -- by destruct Hh.
      * intros b l' Hb. set_unfold in Hb.
        destruct Hb as [Hb|[?|[]]]; try done.
        destruct (Hret _ _ Hb) as (Hub & Hnp & Hnh).
        split; [done|split].
        -- by intros [? _]%Hp.
        -- intros [[= <-]|?]; done.
Qed.

Lemma consumer_generate_inv outcome s trace :
  Inv key s → TraceInv s trace →
  Inv key (consumer_generate key outcome s).1 ∧
  TraceInv (consumer_generate key outcome s).1
    (trace ++ (consumer_generate key outcome s).2).
Proof.
  intros HI HT. pose proof HI as (Hwf & Hpend & Hheld & Hbroken & Hmiss & Hcache).
  pose proof HT as (Hcount & Hsub & Hret).
  unfold consumer_generate.
  destruct (consumer s) as [|a| |] eqn:Hc; simpl; rewrite ?app_nil_r; try done.
  destruct (Hheld a) as [Hunset Hnp]; [by left|].
  pose proof Hunset as (u & Hu & Hslot & Hev). rewrite Hu.
  assert (Hdone : ∀ b l, completed_with (client_requests s) b l → a ≠ b).
  { intros b l (v & Hv & _ & Hev') ->. congruence. }
  assert (Hwf1 : ∀ l, queue_wf (item_id (alter (complete l) a (client_requests s))) (queue s)).
  { intros l. eapply queue_wf_ext; [|exact Hwf]. intros. apply item_id_complete. }
  assert (Hpend1 : ∀ l b, pending (queue s) b →
                          unset (alter (complete l) a (client_requests s)) b).
  { intros l b Hb. apply unset_complete_ne; [by intros ->|by apply Hpend]. }
  assert (Hcount1 : ∀ l p b,
    completions b (trace ++ [Invoked p; Completed a l])
    = fired (alter (complete l) a (client_requests s)) b).
  { intros l p b. rewrite completions_app, fired_complete, Hcount by done.
    simpl. case_decide; lia. }
  assert (Hsub1 : ∀ l p b, submitted b (trace ++ [Invoked p; Completed a l]) →
    (∃ l', completed_with (alter (complete l) a (client_requests s)) b l') ∨
    pending (queue s) b ∨ held Polling b).
  { intros l p b [i Hb]. set_unfold in Hb.
    assert (submitted b trace) as Hs.
    { destruct Hb as [[?|[?|[?|[]]]]|[old' [?|[?|[?|[]]]]]]; try done; exists i; eauto. }
    destruct (Hsub _ Hs) as [[l' Hl']|[Hpb|[[= <-]|?]]]; [| by right; left | | done].
    - left. exists l'. eapply completed_complete_ne; [by eapply Hdone|done].
    - left. eexists. by apply completed_complete. }
  assert (Hret1 : ∀ l p b l', Returned b l' ∈ trace ++ [Invoked p; Completed a l] →
    unset (alter (complete l) a (client_requests s)) b ∧
    ¬ pending (queue s) b ∧ ¬ held Polling b).
  { intros l p b l' Hb. set_unfold in Hb.
    destruct Hb as [Hb|[?|[?|[]]]]; try done.
    destruct (Hret _ _ Hb) as (Hub & Hnpb & Hnh).
    split; [|split; [done|by intros [?|?]]].
    apply unset_complete_ne; [|done]. intros <-. apply Hnh. by left. }
  destruct outcome as [r|message|]; simpl.
  - split; [|split; [apply Hcount1|split; [apply Hsub1|apply Hret1]]].
    split; [apply Hwf1|split; [apply Hpend1|split; [|split; [done|split]]]]; simpl; try done.
    + by intros b [?|?].
    + intros k l. unfold update. rewrite length_app. simpl.
      destruct (decide (key (request_payload u) = k)) as [<-|Hne].
      * rewrite lookup_insert_eq. intros [= <-]. lia.
      * rewrite lookup_insert_ne by done. intros ?%Hcache. lia.
  - split; [|split; [apply Hcount1|split; [apply Hsub1|apply Hret1]]].
    split; [apply Hwf1|split; [apply Hpend1|split; [|split; [done|split]]]]; simpl; try done.
    + by intros b [?|?].
    + intros k l ?%Hcache. rewrite length_app. lia.
  - split.
    + split; [done|split; [done|split; [|split; [done|split]]]]; simpl; try done.
      intros b [?|[= <-]]; [done|]. split; [done|]. done.
    + split; [|split]; simpl.
      * intros b. rewrite completions_app, Hcount. simpl. lia.
      * intros b [i Hb]. set_unfold in Hb.
        assert (submitted b trace) as Hs.
        { destruct Hb as [[?|[?|[]]]|[old' [?|[?|[]]]]]; try done; exists i; eauto. }
        destruct (Hsub _ Hs) as [?|[?|[[= <-]|?]]]; [by left|by right; left| |done].
        right; right. by right.
      * intros b l' Hb. set_unfold in Hb.
        destruct Hb as [Hb|[?|[]]]; try done.
        destruct (Hret _ _ Hb) as (Hub & Hnpb & Hnh).
        split; [done|split; [done|]]. intros [?|[= <-]]; [done|]. apply Hnh. by left.
Qed.

Lemma Inv_init :
  Inv key RequestHandler_init ∧ TraceInv (RequestPayload:=RequestPayload) (Key:=Key) RequestHandler_init [].
Proof.
  split.
  - split; [apply queue_wf_init|]. split; [|split; [|split; [done|split]]]; simpl.
    + intros a [i Hi]. simpl in Hi. by rewrite lookup_empty in Hi.
    + by intros a [?|?].
    + done.
    + intros k l. by rewrite lookup_empty.
  - split; [done|split].
    + intros a [i [Hi|[old Hi]]]; by apply elem_of_nil in Hi.
    + intros a l Hi. by apply elem_of_nil in Hi.
Qed.

Lemma step_inv act s trace :
  Inv key s → TraceInv s trace →
  Inv key (step key act s).1 ∧ TraceInv (step key act s).1 (trace ++ (step key act s).2).
Proof.
  destruct act; simpl.
  - apply handle_request_inv.
  - apply consumer_poll_inv.
  - apply consumer_generate_inv.
Qed.

Lemma run_inv acts : ∀ s trace,
  Inv key s → TraceInv s trace →
  Inv key (run key acts s).1 ∧ TraceInv (run key acts s).1 (trace ++ (run key acts s).2).
Proof.
  induction acts as [|act acts IH]; intros s trace HI HT; simpl.
  - by rewrite app_nil_r.
  - destruct (step_inv act s trace HI HT) as [HI1 HT1].
    destruct (step key act s) as [s1 evs1]. simpl in HI1, HT1.
    destruct (IH _ _ HI1 HT1) as [HI2 HT2].
    destruct (run key acts s1) as [s2 evs2]. simpl in *.
    by rewrite app_assoc.
Qed.

Lemma exec_inv acts : Inv key (exec key acts).1 ∧ TraceInv (exec key acts).1 (exec key acts).2.
Proof. destruct Inv_init. by apply (run_inv acts _ []). Qed.

Lemma item_id_new heap u : item_id (heap ++ [u]) (length heap) = client_id u.
Proof. unfold item_id. by rewrite list_lookup_middle. Qed.

(** ** The response cache *)

(** C2, as the code has it: a lookup of a stored fingerprint returns the
    address of the stored entry itself and sets the served-from-cache marker
    on that entry, in place; status and text of the entry and every other
    object stay as they were, the dict is not touched, and a second lookup
    changes nothing more. *)
Theorem retrieve_marks_in_place p (_cache : gmap Key nat) responses l r :
  _cache !! key p = Some l →
  responses !! l = Some r →
  let responses' := (retrieve key p _cache responses).2 in
  (retrieve key p _cache responses).1 = Some l ∧
  responses' !! l = Some (set_is_cached_response r) ∧
  is_cached_response (set_is_cached_response r) = true ∧
  status (set_is_cached_response r) = status r ∧
  generated_text (set_is_cached_response r) = generated_text r ∧
  (∀ l', l' ≠ l → responses' !! l' = responses !! l') ∧
  retrieve key p _cache responses' = (Some l, responses').
Proof.
  intros Hl Hr. unfold retrieve. rewrite Hl. simpl.
  split; [done|]. split; [by rewrite list_lookup_alter_eq, Hr|].
  do 3 (split; [done|]). split.
  - intros l' Hne. by rewrite list_lookup_alter_ne.
  - f_equal. apply list_eq. intros l'. destruct (decide (l = l')) as [<-|Hne].
    + rewrite !list_lookup_alter_eq. by destruct (responses !! l).
    + by rewrite !list_lookup_alter_ne.
Qed.

(** C4: when the submission of a call replaces the pending unit of its
    identity (the dict has an entry for the identity, which is when
    [put_or_exchange] hands a unit back), the same step writes a new default
    response of status 429 into the replaced unit's slot and sets its event,
    so that the caller waiting on the replaced unit resumes with that
    response. *)
Theorem superseded_unit_rejected request p s old u :
  response_cache s !! key p = None →
  _client_items (queue s) !! get_client_id request = Some old →
  client_requests s !! old = Some u →
  let s' := (handle_request key request p s).1 in
  let new := length (client_requests s) in
  let rejection := length (api_responses s) in
  (handle_request key request p s).2
    = [Created new; Exchanged (get_client_id request) new old; Completed old rejection] ∧
  (∃ r, api_responses s' !! rejection = Some r ∧ status r = 429%Z) ∧
  client_requests s' !! old = Some (complete rejection u) ∧
  event (complete rejection u) = true ∧
  handle_request_resume old s' = Some (Some rejection).
Proof.
  intros Hmiss Hold Hu. unfold handle_request, alloc, retrieve. rewrite Hmiss.
  unfold put_or_exchange. rewrite !item_id_new. simpl. rewrite Hold. simpl.
  assert (Hnew : alter (complete (length (api_responses s))) old
                   (client_requests s ++ [ClientRequest_init request p (S (handler_cnt s))])
                 !! old = Some (complete (length (api_responses s)) u)).
  { rewrite list_lookup_alter_eq, lookup_app_l by (by eapply lookup_lt_Some).
    by rewrite Hu. }
  split; [done|split; [|split; [done|split; [done|]]]].
  - eexists. by rewrite list_lookup_middle.
  - unfold handle_request_resume. simpl. by rewrite Hnew.
Qed.

(** C10: the response written into a superseded unit is
    [generate_default_api_response "" 429]: its text is the empty string and
    it carries nothing but the status 429. *)
Theorem supersession_rejection_has_no_text request p s old u :
  response_cache s !! key p = None →
  _client_items (queue s) !! get_client_id request = Some old →
  client_requests s !! old = Some u →
  let s' := (handle_request key request p s).1 in
  let rejection := length (api_responses s) in
  Completed old rejection ∈ (handle_request key request p s).2 ∧
  (api_response <$> client_requests s' !! old) = Some (Some rejection) ∧
  api_responses s' !! rejection = Some (generate_default_api_response "" 429) ∧
  generated_text (generate_default_api_response "" 429) = "" ∧
  status (generate_default_api_response "" 429) = 429%Z.
Proof.
  intros Hmiss Hold Hu. unfold handle_request, alloc, retrieve. rewrite Hmiss.
  unfold put_or_exchange. rewrite !item_id_new. simpl. rewrite Hold. simpl.
  split; [in_events|]. split; [|split; [|done]].
  - rewrite list_lookup_alter_eq, lookup_app_l by (by eapply lookup_lt_Some).
    by rewrite Hu.
  - by rewrite list_lookup_middle.
Qed.

(** C6: in every state the handler reaches, a call whose fingerprint is in
    the cache returns at once with the address of the cached response, which
    is then marked as served from the cache; the step does nothing but
    create the unit and return: the queue, the cache dict and the consumer
    loop are as before, and the backend is not called. *)
Theorem cache_hit_bypass acts request p l :
  let s := (exec key acts).1 in
  response_cache s !! key p = Some l →
  let s' := (handle_request key request p s).1 in
  let new := length (client_requests s) in
  (handle_request key request p s).2 = [Created new; Returned new l] ∧
  (∃ r, api_responses s' !! l = Some r ∧ is_cached_response r = true) ∧
  queue s' = queue s ∧
  response_cache s' = response_cache s ∧
  consumer s' = consumer s.
Proof.
  intros s Hl. destruct (exec_inv acts) as [(_ & _ & _ & _ & _ & Hcache) _].
  fold s in Hcache. apply Hcache in Hl as Hlt.
  destruct (lookup_lt_is_Some_2 _ _ Hlt) as [r Hr].
  unfold handle_request, alloc, retrieve. rewrite Hl. simpl.
  split; [done|]. split; [|done].
  exists (set_is_cached_response r). by rewrite list_lookup_alter_eq, Hr.
Qed.

Lemma consumer_poll_hit s a queue1 u l :
  consumer s = Polling →
  get (queue s) = Got a queue1 →
  client_requests s !! a = Some u →
  response_cache s !! key (request_payload u) = Some l →
  consumer_poll key s =
    ({| queue := queue1;
        response_cache := response_cache s;
        handler_cnt := handler_cnt s;
        client_requests := alter (complete l) a (client_requests s);
        api_responses := alter set_is_cached_response l (api_responses s);
        consumer := Polling |},
     [Dequeued (client_id u) a; Completed a l]).
Proof.
  intros Hc Hg Hu Hl. unfold consumer_poll, retrieve. by rewrite Hc, Hg, Hu, Hl.
Qed.

Lemma consumer_poll_miss s a queue1 u :
  consumer s = Polling →
  get (queue s) = Got a queue1 →
  client_requests s !! a = Some u →
  response_cache s !! key (request_payload u) = None →
  consumer_poll key s =
    ({| queue := queue1;
        response_cache := response_cache s;
        handler_cnt := handler_cnt s;
        client_requests := client_requests s;
        api_responses := api_responses s;
        consumer := Generating a |},
     [Dequeued (client_id u) a]).
Proof.
  intros Hc Hg Hu Hl. unfold consumer_poll, retrieve. by rewrite Hc, Hg, Hu, Hl.
Qed.

Lemma consumer_generate_invokes s a u outcome :
  consumer s = Generating a →
  client_requests s !! a = Some u →
  Invoked (request_payload u) ∈ (consumer_generate key outcome s).2.
Proof.
  intros Hc Hu. unfold consumer_generate. rewrite Hc, Hu.
  destruct outcome; simpl; in_events.
Qed.

(** C7: the turn of the consumer loop that takes a unit from the queue looks
    its fingerprint up in the cache.  On a hit the unit is completed with
    the cached response in that same step, the loop is back in [get] and no
    backend call follows; on a miss the loop holds the unit and its next
    step calls the backend. *)
Theorem consumer_rechecks_cache s a queue1 u :
  consumer s = Polling →
  get (queue s) = Got a queue1 →
  client_requests s !! a = Some u →
  let s' := (consumer_poll key s).1 in
  (∀ l, response_cache s !! key (request_payload u) = Some l →
        (consumer_poll key s).2 = [Dequeued (client_id u) a; Completed a l] ∧
        client_requests s' !! a = Some (complete l u) ∧
        handle_request_resume a s' = Some (Some l) ∧
        consumer s' = Polling ∧
        ∀ outcome, consumer_generate key outcome s' = (s', [])) ∧
  (response_cache s !! key (request_payload u) = None →
     (consumer_poll key s).2 = [Dequeued (client_id u) a] ∧
     consumer s' = Generating a ∧
     ∀ outcome, Invoked (request_payload u) ∈ (consumer_generate key outcome s').2).
Proof.
  intros Hc Hg Hu. split.
  - intros l Hl. simpl. rewrite (consumer_poll_hit s a queue1 u l) by done. simpl.
    assert (alter (complete l) a (client_requests s) !! a = Some (complete l u)) as Ha.
    { by rewrite list_lookup_alter_eq, Hu. }
    split; [done|split; [done|split; [|split; [done|done]]]].
    unfold handle_request_resume. simpl. by rewrite Ha.
  - intros Hl. simpl. rewrite (consumer_poll_miss s a queue1 u) by done. simpl.
    split; [done|split; [done|]]. intros outcome.
    by apply consumer_generate_invokes with a.
Qed.

Lemma handle_request_miss request p s :
  response_cache s !! key p = None →
  submitted (length (client_requests s)) (handle_request key request p s).2 ∧
  (∀ a l, Returned a l ∉ (handle_request key request p s).2) ∧
  (∀ p', Invoked p' ∉ (handle_request key request p s).2).
Proof.
  intros Hmiss. unfold handle_request, alloc, retrieve, submitted. rewrite Hmiss.
  destruct (put_or_exchange _ _ _) as [[old|] queue1]; simpl.
  - split; [|split; intros; not_in_events]. eexists. right. eexists. in_events.
  - split; [|split; intros; not_in_events]. eexists. left. in_events.
Qed.

(** C5: when the backend call for the unit the loop holds raises
    [GeneratorException], the unit is completed with a new default response
    that carries the error text and the status 400, the loop goes on, and
    the cache is as before, with no entry for the unit's fingerprint.  A
    later call with that fingerprint therefore does not return from the
    cache but is submitted to the queue, and a unit taken from the queue
    while its fingerprint is not cached leads to a backend call. *)
Theorem backend_failure_isolated acts a u message :
  let s := (exec key acts).1 in
  consumer s = Generating a →
  client_requests s !! a = Some u →
  let s' := (consumer_generate key (GeneratorException message) s).1 in
  let l := length (api_responses s) in
  (consumer_generate key (GeneratorException message) s).2
    = [Invoked (request_payload u); Completed a l] ∧
  api_responses s' !! l = Some (generate_default_api_response message 400) ∧
  generated_text (generate_default_api_response message 400) = message ∧
  status (generate_default_api_response message 400) = 400%Z ∧
  client_requests s' !! a = Some (complete l u) ∧
  handle_request_resume a s' = Some (Some l) ∧
  consumer s' = Polling ∧
  response_cache s' = response_cache s ∧
  response_cache s' !! key (request_payload u) = None ∧
  (∀ request p',
     key p' = key (request_payload u) →
     submitted (length (client_requests s')) (handle_request key request p' s').2 ∧
     ∀ a' l', Returned a' l' ∉ (handle_request key request p' s').2) ∧
  (∀ s2 a2 queue2 u2,
     consumer s2 = Polling →
     get (queue s2) = Got a2 queue2 →
     client_requests s2 !! a2 = Some u2 →
     response_cache s2 !! key (request_payload u2) = None →
     consumer (consumer_poll key s2).1 = Generating a2 ∧
     ∀ outcome,
       Invoked (request_payload u2) ∈ (consumer_generate key outcome (consumer_poll key s2).1).2).
Proof.
  intros s Hc Hu.
  destruct (exec_inv acts) as [(_ & _ & _ & _ & Hmiss & _) _]. fold s in Hmiss.
  pose proof (Hmiss _ _ Hc Hu) as Hnone.
  assert (consumer_generate key (GeneratorException message) s =
    ({| queue := queue s;
        response_cache := response_cache s;
        handler_cnt := handler_cnt s;
        client_requests := alter (complete (length (api_responses s))) a (client_requests s);
        api_responses := api_responses s ++ [generate_default_api_response message 400];
        consumer := Polling |},
     [Invoked (request_payload u); Completed a (length (api_responses s))])) as ->.
  { unfold consumer_generate, alloc. by rewrite Hc, Hu. }
  simpl.
  assert (alter (complete (length (api_responses s))) a (client_requests s) !! a
          = Some (complete (length (api_responses s)) u)) as Ha.
  { by rewrite list_lookup_alter_eq, Hu. }
  split; [done|]. split; [by rewrite list_lookup_middle|].
  do 3 (split; [done|]).
  split; [unfold handle_request_resume; simpl; by rewrite Ha|].
  do 3 (split; [done|]). split.
  - intros request p' Hkey.
    match goal with |- context [handle_request key request p' ?st] => set (s' := st) end.
    destruct (handle_request_miss request p' s') as (Hs & Hr & _).
    { simpl. by rewrite Hkey. }
    done.
  - intros s2 a2 queue2 u2 Hc2 Hg2 Hu2 Hl2.
    rewrite (consumer_poll_miss s2 a2 queue2 u2) by done. simpl.
    split; [done|]. intros outcome. by apply consumer_generate_invokes with a2.
Qed.

(** ** Completion of the units *)

Lemma fired_le heap a : fired heap a ≤ 1.
Proof. unfold fired. destruct (heap !! a) as [u|]; [destruct (event u)|]; lia. Qed.

Lemma fired_unset heap a : unset heap a → fired heap a = 0.
Proof. intros (u & Hu & _ & Hev). unfold fired. by rewrite Hu, Hev. Qed.

Lemma fired_completed heap a l : completed_with heap a l → fired heap a = 1.
Proof. intros (u & Hu & _ & Hev). unfold fired. by rewrite Hu, Hev. Qed.

Lemma resume_unset s a : unset (client_requests s) a → handle_request_resume a s = None.
Proof. intros (u & Hu & _ & Hev). unfold handle_request_resume. by rewrite Hu, Hev. Qed.

Lemma resume_completed s a l :
  completed_with (client_requests s) a l → handle_request_resume a s = Some (Some l).
Proof. intros (u & Hu & Hl & Hev). unfold handle_request_resume. by rewrite Hu, Hev, Hl. Qed.

Lemma submitted_app a trace1 trace2 :
  submitted a trace1 → submitted a (trace1 ++ trace2).
Proof.
  intros [i [Hi|[old Hi]]]; exists i; [left|right; exists old]; apply elem_of_app; by left.
Qed.

Lemma run_app acts1 acts2 s :
  run key (acts1 ++ acts2) s
  = ((run key acts2 (run key acts1 s).1).1,
     (run key acts1 s).2 ++ (run key acts2 (run key acts1 s).1).2).
Proof.
  revert s. induction acts1 as [|act acts1 IH]; intros s; simpl.
  - by destruct (run key acts2 s).
  - destruct (step key act s) as [s1 evs1]. rewrite IH.
    destruct (run key acts1 s1) as [s2 evs2]. simpl.
    by rewrite app_assoc.
Qed.

(** The consumer loop, left to itself and with a backend that returns or
    fails as declared, empties the queue. *)
Lemma drain_run outcome n : ∀ s trace,
  outcome ≠ OtherException →
  Inv key s → TraceInv s trace →
  consumer s = Polling →
  length (_queue (queue s)) = n →
  let s' := (run key (drain outcome n) s).1 in
  Inv key s' ∧ TraceInv s' (trace ++ (run key (drain outcome n) s).2) ∧
  consumer s' = Polling ∧ _queue (queue s') = [].
Proof.
  induction n as [|n IH]; intros s trace Hout HI HT Hc Hlen.
  - simpl. rewrite app_nil_r. split; [done|split; [done|split; [done|]]].
    by apply nil_length_inv.
  - pose proof HI as (Hwf & Hpend & _).
    destruct (get_wf _ _ Hwf) as [[Hq _]|(rest & a & Hq & Hitem & Hg & _)].
    { by rewrite Hq in Hlen. }
    destruct (Hpend a) as (u & Hu & _); [by eexists|].
    assert (∃ s2 evs2,
      run key [ConsumerPoll; ConsumerGenerate outcome] s = (s2, evs2) ∧
      consumer s2 = Polling ∧ _queue (queue s2) = rest) as (s2 & evs2 & Hrun & Hc2 & Hq2).
    { simpl. destruct (response_cache s !! key (request_payload u)) as [l|] eqn:Hl.
      - rewrite (consumer_poll_hit s a _ u l) by done.
        unfold consumer_generate. simpl. by eexists _, _.
      - rewrite (consumer_poll_miss s a _ u) by done.
        unfold consumer_generate, alloc. simpl. rewrite Hu.
        destruct outcome; [| |done]; simpl; by eexists _, _. }
    destruct (run_inv [ConsumerPoll; ConsumerGenerate outcome] s trace HI HT)
      as [HI2 HT2].
    rewrite Hrun in HI2, HT2. simpl in HI2, HT2.
    destruct (IH s2 (trace ++ evs2) Hout HI2 HT2 Hc2) as (HI3 & HT3 & Hc3 & Hq3).
    { rewrite Hq2. rewrite Hq in Hlen. simpl in Hlen. lia. }
    change (drain outcome (S n)) with
      ([ConsumerPoll; ConsumerGenerate outcome] ++ drain (RequestPayload:=RequestPayload) outcome n).
    rewrite run_app, Hrun. simpl. by rewrite app_assoc.
Qed.

(** C1, as the code has it: no result slot is written more than once.  A
    unit that was submitted to the queue has been completed exactly once, or
    else is still pending in the queue or held by the consumer loop, and its
    caller waits.  A unit whose call returned from the cache was never
    submitted and is never completed.  While the consumer loop is alive and
    the backend returns or fails as declared, the loop on its own completes
    every submitted unit. *)
Theorem completion_exactly_once_when_submitted acts :
  let s := (exec key acts).1 in
  let trace := (exec key acts).2 in
  (∀ a, completions a trace ≤ 1) ∧
  (∀ a, submitted a trace →
     (completions a trace = 1 ∧
      ∃ l, completed_with (client_requests s) a l ∧
           handle_request_resume a s = Some (Some l)) ∨
     (completions a trace = 0 ∧
      handle_request_resume a s = None ∧
      (pending (queue s) a ∨ held (consumer s) a))) ∧
  (∀ a l, Returned a l ∈ trace →
     ¬ submitted a trace ∧ completions a trace = 0 ∧
     handle_request_resume a s = None) ∧
  (∀ outcome,
     outcome ≠ OtherException →
     (∀ b, consumer s ≠ Failed b) →
     let evs :=
       (run key (ConsumerGenerate outcome :: drain outcome (length (_queue (queue s)))) s).2 in
     ∀ a, submitted a trace → completions a (trace ++ evs) = 1).
Proof.
  intros s trace. destruct (exec_inv acts) as [HI HT]. fold s in HI, HT. fold trace in HT.
  pose proof HI as (Hwf & Hpend & Hheld & Hbroken & _).
  pose proof HT as (Hcount & Hsub & Hret).
  split; [|split; [|split]].
  - intros a. rewrite Hcount. apply fired_le.
  - intros a Ha. rewrite Hcount. destruct (Hsub _ Ha) as [[l Hl]|Hph].
    + left. split; [by eapply fired_completed|]. exists l. split; [done|].
      by apply resume_completed.
    + right. assert (unset (client_requests s) a) as Hu.
      { destruct Hph as [?|?]; [by apply Hpend|by apply Hheld]. }
      split; [by apply fired_unset|]. split; [by apply resume_unset|done].
  - intros a l Ha. destruct (Hret _ _ Ha) as (Hu & Hnp & Hnh). rewrite Hcount.
    split; [|split; [by apply fired_unset|by apply resume_unset]].
    intros [[l' (u & Hl' & _ & Hev)]|[?|?]]%Hsub; [|done|done].
    destruct Hu as (u' & Hu' & _ & Hev'). congruence.
  - intros outcome Hout Halive evs a Ha. subst evs.
    change (ConsumerGenerate outcome :: ?l) with ([ConsumerGenerate outcome] ++ l).
    rewrite run_app. simpl.
    destruct (consumer_generate_inv outcome s trace HI HT) as [HI1 HT1].
    assert (consumer (consumer_generate key outcome s).1 = Polling ∧
            queue (consumer_generate key outcome s).1 = queue s) as [Hc1 Hq1].
    { unfold consumer_generate, alloc. destruct (consumer s) as [|b|b|] eqn:Hc; try done.
      - destruct (Hheld b) as [(u & Hu & _) _]; [by left|]. rewrite Hu.
        by destruct outcome.
      - by destruct (Halive b). }
    destruct (consumer_generate key outcome s) as [s1 evs1]. simpl in *.
    destruct (drain_run outcome (length (_queue (queue s))) s1 (trace ++ evs1))
      as (HI2 & HT2 & Hc2 & Hq2); try done.
    { by rewrite Hq1. }
    destruct (run key (drain outcome _) s1) as [s2 evs2]. simpl in *.
    rewrite app_nil_r, app_assoc.
    destruct HT2 as (Hcount2 & Hsub2 & _). rewrite Hcount2.
    destruct (Hsub2 a) as [[l Hl]|[[i Hi]|Hh]].
    + by do 2 apply submitted_app.
    + by eapply fired_completed.
    + destruct HI2 as ((_ & Hdom & _) & _).
      assert (i ∈ _queue (queue s2)) as Hin by (apply Hdom; by eexists).
      rewrite Hq2 in Hin. by apply elem_of_nil in Hin.
    + rewrite Hc2 in Hh. by destruct Hh.
Qed.

(** ** Order of service *)

(** What a step does to the deque and to the consumer loop. *)
Lemma handle_request_queue request p s :
  consumer (handle_request key request p s).1 = consumer s ∧
  (∀ i a, Dequeued i a ∉ (handle_request key request p s).2) ∧
  ((_queue (queue (handle_request key request p s).1) = _queue (queue s) ∧
    ∀ i a, Appended i a ∉ (handle_request key request p s).2) ∨
   (∃ i, _queue (queue (handle_request key request p s).1) = _queue (queue s) ++ [i] ∧
         (handle_request key request p s).2
         = [Created (length (client_requests s)); Appended i (length (client_requests s))])).
Proof.
  unfold handle_request, alloc, retrieve, put_or_exchange.
  destruct (response_cache s !! key p) as [l|]; simpl.
  { split; [done|]. split; [intros; not_in_events|]. left. split; [done|].
    intros; not_in_events. }
  destruct (_client_items (queue s) !! _) as [old|]; simpl.
  - split; [done|]. split; [intros; not_in_events|]. left. split; [done|].
    intros; not_in_events.
  - split; [done|]. split; [intros; not_in_events|]. right. by eexists.
Qed.

Lemma consumer_poll_queue s :
  Inv key s →
  consumer_poll key s = (s, []) ∨
  ∃ a u rest,
    consumer s = Polling ∧
    client_requests s !! a = Some u ∧
    pending (queue s) a ∧
    _queue (queue s) = client_id u :: rest ∧
    _queue (queue (consumer_poll key s).1) = rest ∧
    (((∃ l, (consumer_poll key s).2 = [Dequeued (client_id u) a; Completed a l]) ∧
      consumer (consumer_poll key s).1 = Polling) ∨
     ((consumer_poll key s).2 = [Dequeued (client_id u) a] ∧
      consumer (consumer_poll key s).1 = Generating a)).
Proof.
  intros (Hwf & Hpend & _).
  destruct (consumer s) eqn:Hc; try (left; unfold consumer_poll; by rewrite Hc).
  destruct (get_wf _ _ Hwf) as [[_ Hs]|(rest & a & Hq & Hitem & Hg & _)].
  { left. unfold consumer_poll. by rewrite Hc, Hs. }
  assert (pending (queue s) a) as Hpa by (by eexists).
  destruct (Hpend a Hpa) as (u & Hu & _).
  assert (item_id (client_requests s) a = client_id u) as Hid.
  { unfold item_id. by rewrite Hu. }
  rewrite Hid in *.
  right. exists a, u, rest. do 4 (split; [done|]).
  destruct (response_cache s !! key (request_payload u)) as [l|] eqn:Hl.
  - rewrite (consumer_poll_hit s a _ u l) by done. simpl.
    split; [done|]. left. split; [by eexists|done].
  - rewrite (consumer_poll_miss s a _ u) by done. simpl.
    split; [done|]. by right.
Qed.

Lemma consumer_generate_queue outcome s :
  queue (consumer_generate key outcome s).1 = queue s ∧
  (∀ i a, Dequeued i a ∉ (consumer_generate key outcome s).2) ∧
  (∀ i a, Appended i a ∉ (consumer_generate key outcome s).2).
Proof.
  unfold consumer_generate, alloc.
  destruct (consumer s); simpl; try (split; [done|split; intros; not_in_events]).
  destruct (client_requests s !! a); simpl; try (split; [done|split; intros; not_in_events]).
  destruct outcome; simpl; split; try done; split; intros; not_in_events.
Qed.

Lemma step_precedes act s A B :
  Inv key s →
  precedes A B (_queue (queue s)) →
  (A ≠ B → ∀ b, Dequeued B b ∉ (step key act s).2) ∧
  ((∃ a, Dequeued A a ∈ (step key act s).2) ∨
   precedes A B (_queue (queue (step key act s).1))).
Proof.
  intros HI (front & back & Hq & HB). destruct act as [request p| |outcome]; simpl.
  - destruct (handle_request_queue request p s) as (_ & Hnd & [[-> _]|(i & -> & _)]).
    + split; [done|]. right. by exists front, back.
    + split; [done|]. right. exists front, (back ++ [i]).
      split; [|done]. by rewrite Hq, <- app_assoc.
  - destruct (consumer_poll_queue s HI) as [->|(a & u & rest & _ & _ & _ & Hq' & -> & Hev)].
    { split; [intros ? ?; not_in_events|]. right. by exists front, back. }
    rewrite Hq in Hq'. destruct front as [|i front]; simpl in Hq'.
    + injection Hq' as HA _. rewrite <- HA in Hev. split.
      * intros HAB b Hb.
        destruct Hev as [[[l Hev] _]|[Hev _]]; rewrite Hev in Hb; set_unfold in Hb;
          repeat (destruct Hb as [Hb|Hb]; try done); congruence.
      * left. exists a. destruct Hev as [[[l ->] _]|[-> _]]; in_events.
    + injection Hq' as Hi Hrest. apply not_elem_of_cons in HB as [HBi HB].
      rewrite <- Hi in Hev. split.
      * intros HAB b Hb.
        destruct Hev as [[[l Hev] _]|[Hev _]]; rewrite Hev in Hb; set_unfold in Hb;
          repeat (destruct Hb as [Hb|Hb]; try done); congruence.
      * right. by exists front, back.
  - destruct (consumer_generate_queue outcome s) as (-> & Hnd & _).
    split; [done|]. right. by exists front, back.
Qed.

Lemma run_precedes acts A B : ∀ s trace,
  Inv key s → TraceInv s trace →
  precedes A B (_queue (queue s)) →
  (∃ a, Dequeued A a ∈ (run key acts s).2) ∨
  precedes A B (_queue (queue (run key acts s).1)).
Proof.
  induction acts as [|act acts IH]; intros s trace HI HT Hp; simpl; [by right|].
  destruct (step_precedes act s A B HI Hp) as [_ Hstep].
  destruct (step_inv act s trace HI HT) as [HI1 HT1].
  destruct (step key act s) as [s1 evs1]. simpl in *.
  destruct Hstep as [[a Ha]|Hp1].
  - destruct (run key acts s1) as [s2 evs2]. simpl. left. exists a.
    apply elem_of_app. by left.
  - destruct (IH s1 _ HI1 HT1 Hp1) as [[a Ha]|Hp2].
    + destruct (run key acts s1) as [s2 evs2]. simpl in *. left. exists a.
      apply elem_of_app. by right.
    + destruct (run key acts s1) as [s2 evs2]. by right.
Qed.

Lemma precedes_self A fifo : A ∈ fifo → precedes A A fifo.
Proof.
  induction fifo as [|i fifo IH]; [by intros ?%elem_of_nil|].
  destruct (decide (i = A)) as [->|Hne].
  - intros _. exists [], fifo. split; [done|]. apply not_elem_of_nil.
  - intros [?|Hin]%elem_of_cons; [congruence|].
    destruct (IH Hin) as (front & back & -> & Hfront).
    exists (i :: front), back. split; [done|].
    apply not_elem_of_cons. split; [congruence|done].
Qed.

Lemma precedes_elem A B fifo : precedes A B fifo → A ∈ fifo.
Proof. intros (front & back & -> & _). apply elem_of_app. right. by left. Qed.

Lemma step_held act s x :
  held (consumer s) x →
  (∃ l, Completed x l ∈ (step key act s).2) ∨ held (consumer (step key act s).1) x.
Proof.
  intros Hx. destruct act as [request p| |outcome]; simpl.
  - destruct (handle_request_queue request p s) as (-> & _). by right.
  - right. unfold consumer_poll.
    destruct Hx as [Hx|Hx]; rewrite Hx; simpl; rewrite Hx; [by left|by right].
  - unfold consumer_generate, alloc.
    destruct Hx as [Hx|Hx]; rewrite Hx; [|right; simpl; rewrite Hx; by right].
    destruct (client_requests s !! x) as [u|]; [|right; simpl; rewrite Hx; by left].
    destruct outcome; simpl.
    + left. eexists. in_events.
    + left. eexists. in_events.
    + right. by right.
Qed.

Lemma run_held acts x : ∀ s,
  held (consumer s) x →
  (∃ l, Completed x l ∈ (run key acts s).2) ∨ held (consumer (run key acts s).1) x.
Proof.
  induction acts as [|act acts IH]; intros s Hx; simpl; [by right|].
  destruct (step_held act s x Hx) as [[l Hl]|Hx1];
    destruct (step key act s) as [s1 evs1]; simpl in *.
  - destruct (run key acts s1) as [s2 evs2]. left. exists l. apply elem_of_app. by left.
  - destruct (IH s1 Hx1) as [[l Hl]|Hx2]; destruct (run key acts s1) as [s2 evs2]; simpl in *.
    + left. exists l. apply elem_of_app. by right.
    + by right.
Qed.

(** A unit the consumer loop took is completed before the loop is back
    in [get]. *)
Lemma run_served acts : ∀ s trace i x,
  Inv key s → TraceInv s trace →
  Dequeued i x ∈ (run key acts s).2 →
  (∃ l p1 p2 p3, (run key acts s).2 = p1 ++ Dequeued i x :: p2 ++ Completed x l :: p3) ∨
  held (consumer (run key acts s).1) x.
Proof.
  induction acts as [|act acts IH]; intros s trace i x HI HT Hx; simpl in *.
  { by apply elem_of_nil in Hx. }
  destruct (step_inv act s trace HI HT) as [HI1 HT1].
  assert (Hstep : Dequeued i x ∈ (step key act s).2 →
    (∃ l, (step key act s).2 = [Dequeued i x; Completed x l]) ∨
    ((step key act s).2 = [Dequeued i x] ∧ held (consumer (step key act s).1) x)).
  { destruct act as [request p| |outcome]; simpl.
    - intros Hin. by destruct (handle_request_queue request p s) as (_ & Hnd & _), (Hnd i x).
    - destruct (consumer_poll_queue s HI) as [->|(a & u & rest & _ & _ & _ & _ & _ & Hev)].
      { by intros ?%elem_of_nil. }
      destruct Hev as [[[l ->] _]|[-> Hc]]; intros Hin; set_unfold in Hin.
      + destruct Hin as [[= -> ->]|[?|[]]]; [|done]. left. by eexists.
      + destruct Hin as [[= -> ->]|[]]. right. split; [done|by left].
    - intros Hin. by destruct (consumer_generate_queue outcome s) as (_ & Hnd & _), (Hnd i x). }
  destruct (step key act s) as [s1 evs1]. simpl in *.
  pose proof (IH s1 (trace ++ evs1) i x HI1 HT1) as IH1.
  pose proof (run_held acts x s1) as Hheld.
  destruct (run key acts s1) as [s2 evs2]. simpl in *.
  apply elem_of_app in Hx as [Hx|Hx].
  - destruct (Hstep Hx) as [[l ->]|[-> Hh]].
    + left. by exists l, [], [], evs2.
    + destruct (Hheld Hh) as [[l Hl]|?]; [|by right].
      apply list_elem_of_split in Hl as (q1 & q2 & ->).
      left. by exists l, [], q1, q2.
  - destruct (IH1 Hx) as [(l & p1 & p2 & p3 & ->)|?]; [|by right].
    left. exists l, (evs1 ++ p1), p2, p3. by rewrite <- app_assoc.
Qed.

Lemma completions_none a trace : completions a trace = 0 → ∀ l, Completed a l ∉ trace.
Proof.
  induction trace as [|e trace IH]; intros Hc l; [apply not_elem_of_nil|].
  apply not_elem_of_cons. destruct e; simpl in Hc; try (split; [done|by apply IH]).
  case_decide; [done|]. split; [congruence|by apply IH].
Qed.

(** C8: let a call append identity [A] to the deque and a later call append
    another identity [B].  At any later turn of [get] that takes a unit of
    [B], a unit of [A] was taken and completed after [A] was appended and
    before that turn, and the unit of [B] that is taken has not been
    completed. *)
Theorem fifo_service_order acts1 requestA pA acts2 requestB pB acts3 A B a b b' :
  let s1 := (exec key acts1).1 in
  let s2 := (handle_request key requestA pA s1).1 in
  let s3 := (run key acts2 s2).1 in
  let s4 := (handle_request key requestB pB s3).1 in
  let s5 := (run key acts3 s4).1 in
  let before_A := (exec key acts1).2 ++ (handle_request key requestA pA s1).2 in
  let since_A :=
    (run key acts2 s2).2 ++ (handle_request key requestB pB s3).2 ++ (run key acts3 s4).2 in
  A ≠ B →
  Appended A a ∈ (handle_request key requestA pA s1).2 →
  Appended B b ∈ (handle_request key requestB pB s3).2 →
  Dequeued B b' ∈ (consumer_poll key s5).2 →
  (∃ a' l p1 p2 p3, since_A = p1 ++ Dequeued A a' :: p2 ++ Completed a' l :: p3) ∧
  (∀ l, Completed b' l ∉ before_A ++ since_A).
Proof.
  intros s1 s2 s3 s4 s5 before_A since_A HAB HappA HappB Hdeq.
  destruct (exec_inv acts1) as [HI1 HT1]. fold s1 in HI1, HT1.
  destruct (handle_request_inv requestA pA s1 _ HI1 HT1) as [HI2 HT2].
  fold s2 in HI2, HT2. fold before_A in HT2.
  destruct (run_inv acts2 s2 _ HI2 HT2) as [HI3 HT3]. fold s3 in HI3, HT3.
  destruct (handle_request_inv requestB pB s3 _ HI3 HT3) as [HI4 HT4].
  fold s4 in HI4, HT4.
  destruct (run_inv acts3 s4 _ HI4 HT4) as [HI5 HT5]. fold s5 in HI5, HT5.
  rewrite <- !app_assoc in HT5. fold since_A in HT5.
  (* the two submissions append their identities *)
  assert (HqA : _queue (queue s2) = _queue (queue s1) ++ [A]).
  { destruct (handle_request_queue requestA pA s1) as (_ & _ & [[_ Hno]|(i & Hq & Hev)]).
    - by destruct (Hno A a).
    - fold s2 in Hq. rewrite Hev in HappA. set_unfold in HappA.
      destruct HappA as [?|[[= -> _]|[]]]; done. }
  assert (HqB : _queue (queue s4) = _queue (queue s3) ++ [B]).
  { destruct (handle_request_queue requestB pB s3) as (_ & _ & [[_ Hno]|(i & Hq & Hev)]).
    - by destruct (Hno B b).
    - fold s4 in Hq. rewrite Hev in HappB. set_unfold in HappB.
      destruct HappB as [?|[[= -> _]|[]]]; done. }
  (* the turn of [get] that takes B *)
  destruct (consumer_poll_queue s5 HI5)
    as [Hnone|(x & u & rest & Hc5 & Hu & Hpx & Hq5 & _ & Hev)].
  { rewrite Hnone in Hdeq. by apply elem_of_nil in Hdeq. }
  assert (client_id u = B ∧ x = b') as [HuB ->].
  { destruct Hev as [[[l Hev] _]|[Hev _]]; rewrite Hev in Hdeq; set_unfold in Hdeq;
      repeat (destruct Hdeq as [Hdeq|Hdeq]; try done); by injection Hdeq. }
  rewrite HuB in Hq5.
  (* a unit of A was taken before *)
  assert (HdeqA : ∃ a', Dequeued A a' ∈ since_A).
  { destruct (run_precedes acts2 A A s2 _ HI2 HT2) as [[a' Ha']|HA3].
    { apply precedes_self. rewrite HqA. apply elem_of_app. right. by left. }
    { exists a'. apply elem_of_app. by left. }
    fold s3 in HA3. apply precedes_elem in HA3.
    apply list_elem_of_split in HA3 as (front & back & Hq3).
    assert (B ∉ _queue (queue s3)) as HB3.
    { destruct HI4 as ((Hnd & _) & _). rewrite HqB in Hnd.
      apply NoDup_app in Hnd as (_ & Hnd & _). intros Hin. apply (Hnd _ Hin). by left. }
    destruct (run_precedes acts3 A B s4 _ HI4 HT4) as [[a' Ha']|HA5].
    { exists front, (back ++ [B]). split.
      - by rewrite HqB, Hq3, <- app_assoc.
      - intros Hin. apply HB3. rewrite Hq3. apply elem_of_app. by left. }
    { exists a'. apply elem_of_app. right. apply elem_of_app. by right. }
    fold s5 in HA5. destruct HA5 as (front5 & back5 & Hq5' & HB5).
    rewrite Hq5 in Hq5'. destruct front5 as [|i front5]; simpl in Hq5'.
    - injection Hq5' as ? _. congruence.
    - injection Hq5' as <- _. destruct HB5. by left. }
  destruct HdeqA as [a' Ha'].
  split.
  - pose proof (run_served (acts2 ++ [Handle requestB pB] ++ acts3) s2 _ A a' HI2 HT2)
      as Hserved.
    rewrite !run_app in Hserved. simpl in Hserved.
    fold s3 in Hserved.
    destruct (handle_request key requestB pB s3) as [s4' evB] eqn:HeqB.
    simpl in Hserved. subst s4. simpl in *. fold s5 in Hserved.
    rewrite app_nil_r in Hserved. fold since_A in Hserved.
    destruct (Hserved Ha') as [(l & p1 & p2 & p3 & Hsplit)|Hheld].
    + by exists a', l, p1, p2, p3.
    + rewrite Hc5 in Hheld. by destruct Hheld.
  - apply completions_none. destruct HT5 as (Hcount & _). rewrite Hcount.
    apply fired_unset. destruct HI5 as (_ & Hpend & _). by apply Hpend.
Qed.

(** A unit whose call returned from the cache is not completed, whatever
    happens later. *)
Lemma returned_never_completed acts more a l :
  Returned a l ∈ (exec key acts).2 →
  completions a (exec key (acts ++ more)).2 = 0.
Proof.
  intros Hret.
  destruct (exec_inv (acts ++ more)) as [_ (Hcount & _ & Hreturned)].
  rewrite Hcount. apply fired_unset.
  destruct (Hreturned a l) as [Hu _]; [|done].
  unfold exec. rewrite run_app. simpl. apply elem_of_app. by left.
Qed.
End HandlerProperties.

(** * The properties at work *)

Lemma get_client_id_credentials_witness :
  get_client_id anonymous = "" ∧
  get_client_id alice = "alice10.0.0.1" ∧
  get_client_id basic = "".
Proof.
  split; [|split].
  - apply (proj1 (get_client_id_credentials anonymous)). reflexivity.
  - apply (proj1 (proj2 (get_client_id_credentials alice)) "alice"). reflexivity.
  - apply (proj2 (proj2 (get_client_id_credentials basic)) "Basic dXNlcg=="); reflexivity.
Defined.

Lemma coalescing_queue_invariant_witness :
  let q := (queue_run fst [PutOrExchange ("A", 1); PutOrExchange ("B", 2)]
              ClientRequestQueue_init).1 in
  _client_items q !! "A" = Some ("A", 1) ∧
  put_or_exchange fst ("A", 3) q
  = (Some ("A", 1),
     {| _queue := _queue q; _client_items := <["A" := ("A", 3)]> (_client_items q) |}).
Proof.
  intros q.
  assert (Hold : _client_items q !! "A" = Some ("A", 1)) by (vm_compute; reflexivity).
  split; [exact Hold|].
  exact (proj1 (proj2 (proj2 (proj2
           (coalescing_queue_invariant fst [PutOrExchange ("A", 1); PutOrExchange ("B", 2)]))))
           ("A", 3) ("A", 1) Hold).
Defined.

Lemma retrieve_marks_in_place_witness :
  ({["p" := 0]} : gmap string nat) !! fingerprint "p" = Some 0 ∧
  [answer] !! 0 = Some answer ∧
  (retrieve fingerprint "p" {["p" := 0]} [answer]).2 !! 0
  = Some (set_is_cached_response answer).
Proof.
  assert (H1 : ({["p" := 0]} : gmap string nat) !! fingerprint "p" = Some 0)
    by (vm_compute; reflexivity).
  assert (H2 : [answer] !! 0 = Some answer) by reflexivity.
  split; [exact H1|split; [exact H2|]].
  exact (proj1 (proj2 (retrieve_marks_in_place fingerprint "p" _ _ 0 answer H1 H2))).
Defined.

(** C2, as the spec has it, fails: the entry found is marked. *)
Lemma retrieve_changes_stored_entry :
  ¬ (∀ (p : string) (_cache : gmap string nat) (responses : list ApiResponse) l r,
       _cache !! fingerprint p = Some l →
       responses !! l = Some r →
       (retrieve fingerprint p _cache responses).2 !! l = Some r).
Proof.
  intros Hclaim.
  assert (H1 : ({["p" := 0]} : gmap string nat) !! fingerprint "p" = Some 0)
    by (vm_compute; reflexivity).
  specialize (Hclaim "p" {["p" := 0]} [answer] 0 answer H1 eq_refl).
  vm_compute in Hclaim. discriminate Hclaim.
Qed.

Lemma superseded_unit_rejected_witness :
  let s := (exec fingerprint [Handle alice "p"]).1 in
  response_cache s !! fingerprint "q" = None ∧
  _client_items (queue s) !! get_client_id alice = Some 0 ∧
  handle_request_resume 0 (handle_request fingerprint alice "q" s).1 = Some (Some 0).
Proof.
  intros s.
  assert (H1 : response_cache s !! fingerprint "q" = None) by (vm_compute; reflexivity).
  assert (H2 : _client_items (queue s) !! get_client_id alice = Some 0)
    by (vm_compute; reflexivity).
  assert (H3 : client_requests s !! 0 = Some (ClientRequest_init alice "p" 1)) by reflexivity.
  split; [exact H1|split; [exact H2|]].
  exact (proj2 (proj2 (proj2 (proj2
           (superseded_unit_rejected fingerprint alice "q" s 0 _ H1 H2 H3))))).
Defined.

Lemma supersession_rejection_has_no_text_witness :
  let s := (exec fingerprint [Handle bob "p"]).1 in
  response_cache s !! fingerprint "q" = None ∧
  _client_items (queue s) !! get_client_id bob = Some 0 ∧
  api_responses (handle_request fingerprint bob "q" s).1 !! 0
  = Some (generate_default_api_response "" 429).
Proof.
  intros s.
  assert (H1 : response_cache s !! fingerprint "q" = None) by (vm_compute; reflexivity).
  assert (H2 : _client_items (queue s) !! get_client_id bob = Some 0)
    by (vm_compute; reflexivity).
  assert (H3 : client_requests s !! 0 = Some (ClientRequest_init bob "p" 1)) by reflexivity.
  split; [exact H1|split; [exact H2|]].
  exact (proj1 (proj2 (proj2
           (supersession_rejection_has_no_text fingerprint bob "q" s 0 _ H1 H2 H3)))).
Defined.

Lemma cache_hit_bypass_witness :
  let s := (exec fingerprint served_once).1 in
  response_cache s !! fingerprint "p" = Some 0 ∧
  (handle_request fingerprint bob "p" s).2 = [Created 1; Returned 1 0].
Proof.
  intros s.
  assert (H1 : response_cache s !! fingerprint "p" = Some 0) by (vm_compute; reflexivity).
  split; [exact H1|].
  exact (proj1 (cache_hit_bypass fingerprint served_once bob "p" 0 H1)).
Defined.

Lemma consumer_rechecks_cache_witness :
  let s := (exec fingerprint (Handle bob "p" :: served_once)).1 in
  consumer s = Polling ∧
  response_cache s !! fingerprint "p" = Some 0 ∧
  (consumer_poll fingerprint s).2 = [Dequeued "alice10.0.0.1" 1; Completed 1 0].
Proof.
  intros s.
  assert (H1 : consumer s = Polling) by reflexivity.
  assert (H2 : get (queue s) =
               Got 1 {| _queue := [];
                        _client_items := delete "alice10.0.0.1" (_client_items (queue s)) |})
    by (vm_compute; reflexivity).
  assert (H3 : client_requests s !! 1 = Some (ClientRequest_init alice "p" 2)) by reflexivity.
  assert (H4 : response_cache s !! fingerprint "p" = Some 0) by (vm_compute; reflexivity).
  split; [exact H1|split; [exact H4|]].
  exact (proj1 (proj1 (consumer_rechecks_cache fingerprint s 1 _ _ H1 H2 H3) 0 H4)).
Defined.

Lemma backend_failure_isolated_witness :
  let s := (exec fingerprint [Handle alice "p"; ConsumerPoll]).1 in
  let s' := (consumer_generate fingerprint (GeneratorException "out of memory") s).1 in
  consumer s = Generating 0 ∧
  api_responses s' !! 0 = Some (generate_default_api_response "out of memory" 400) ∧
  response_cache s' !! fingerprint "p" = None.
Proof.
  intros s s'.
  assert (H1 : consumer s = Generating 0) by reflexivity.
  assert (H2 : client_requests s !! 0 = Some (ClientRequest_init alice "p" 1)) by reflexivity.
  pose proof (backend_failure_isolated fingerprint [Handle alice "p"; ConsumerPoll]
                0 _ "out of memory" H1 H2) as Hthm.
  split; [exact H1|split].
  - exact (proj1 (proj2 Hthm)).
  - exact (proj1 (proj2 (proj2 (proj2 (proj2 (proj2 (proj2 (proj2 (proj2 Hthm))))))))).
Defined.

Lemma completion_exactly_once_when_submitted_witness :
  let acts := [Handle alice "p"; Handle alice "q"; Handle bob "p"] in
  let s := (exec fingerprint acts).1 in
  let trace := (exec fingerprint acts).2 in
  let evs :=
    (run fingerprint
       (ConsumerGenerate (Generated answer)
        :: drain (Generated answer) (length (_queue (queue s)))) s).2 in
  submitted 2 trace ∧ completions 2 (trace ++ evs) = 1.
Proof.
  intros acts s trace evs.
  assert (H1 : Generated answer ≠ OtherException) by discriminate.
  assert (H2 : ∀ b, consumer s ≠ Failed b) by (intros b; discriminate).
  assert (H3 : submitted 2 trace).
  { exists "bob10.0.0.2". left. vm_compute. in_events. }
  split; [exact H3|].
  exact (proj2 (proj2 (proj2 (completion_exactly_once_when_submitted fingerprint acts)))
           (Generated answer) H1 H2 2 H3).
Defined.

(** C1, as the spec has it, fails: the unit of a call that finds its
    fingerprint in the cache is created and then left alone; no run
    completes it. *)
Lemma fast_path_unit_never_completed :
  ¬ (∀ acts a,
       Created a ∈ (exec fingerprint acts).2 →
       ∃ more, completions a (exec fingerprint (acts ++ more)).2 = 1).
Proof.
  intros Hclaim.
  destruct (Hclaim (served_once ++ [Handle bob "p"]) 1) as [more Hmore].
  { vm_compute. in_events. }
  rewrite (returned_never_completed fingerprint _ more 1 0) in Hmore; [discriminate|].
  vm_compute. in_events.
Qed.

Lemma fifo_service_order_witness :
  let s2 := (handle_request fingerprint alice "p" (exec fingerprint []).1).1 in
  let s4 := (handle_request fingerprint bob "q" s2).1 in
  let served_alice := [ConsumerPoll; ConsumerGenerate (Generated answer)] in
  let s5 := (run fingerprint served_alice s4).1 in
  Dequeued "bob10.0.0.2" 1 ∈ (consumer_poll fingerprint s5).2 ∧
  ∃ a' l p1 p2 p3,
    (run fingerprint [] s2).2 ++ (handle_request fingerprint bob "q" s2).2 ++
    (run fingerprint served_alice s4).2
    = p1 ++ Dequeued "alice10.0.0.1" a' :: p2 ++ Completed a' l :: p3.
Proof.
  intros s2 s4 served_alice s5.
  assert (H0 : "alice10.0.0.1" ≠ "bob10.0.0.2") by discriminate.
  assert (H1 : Appended "alice10.0.0.1" 0
               ∈ (handle_request fingerprint alice "p" (exec fingerprint []).1).2).
  { vm_compute. in_events. }
  assert (H2 : Appended "bob10.0.0.2" 1 ∈ (handle_request fingerprint bob "q" s2).2).
  { vm_compute. in_events. }
  assert (H3 : Dequeued "bob10.0.0.2" 1 ∈ (consumer_poll fingerprint s5).2).
  { vm_compute. in_events. }
  split; [exact H3|].
  exact (proj1 (fifo_service_order fingerprint [] alice "p" [] bob "q" served_alice
                  "alice10.0.0.1" "bob10.0.0.2" 0 1 1 H0 H1 H2 H3)).
Defined.

(** * Further properties of the handler *)

Section HandlerExtras.
Context {RequestPayload Key : Type} `{Countable Key} (key : RequestPayload → Key).
Implicit Types (s : State (RequestPayload:=RequestPayload) (Key:=Key)).
Implicit Types (heap : list (ClientRequest (RequestPayload:=RequestPayload))).
Implicit Types (trace : list (Event (RequestPayload:=RequestPayload))).

(** What holds of a state, is kept by every step from a state the handler
    can be in, holds after every run. *)
Lemma run_preserves (P : State (RequestPayload:=RequestPayload) (Key:=Key) → Prop) :
  (∀ act s, Inv key s → P s → P (step key act s).1) →
  ∀ acts s trace, Inv key s → TraceInv s trace → P s → P (run key acts s).1.
Proof.
  intros Hstep. induction acts as [|act acts IH]; intros s trace HI HT HP; [done|].
  simpl. destruct (step_inv key act s trace HI HT) as [HI1 HT1].
  pose proof (Hstep act s HI HP) as HP1.
  destruct (step key act s) as [s1 evs1]. simpl in *.
  pose proof (IH s1 _ HI1 HT1 HP1) as HP2.
  by destruct (run key acts s1) as [s2 evs2].
Qed.

(** A step leaves a unit as it is or completes it, and completes only a
    unit whose event is unset. *)
Lemma step_requests act s a u :
  Inv key s →
  client_requests s !! a = Some u →
  client_requests (step key act s).1 !! a = Some u ∨
  (event u = false ∧ ∃ l, client_requests (step key act s).1 !! a = Some (complete l u)).
Proof.
  intros (Hwf & Hpend & Hheld & _) Ha.
  assert (Hlt : a < length (client_requests s)) by (by eapply lookup_lt_Some).
  assert (Halter : ∀ heap b l, heap !! a = Some u → unset heap b →
    alter (complete l) b heap !! a = Some u ∨
    (event u = false ∧ ∃ l', alter (complete l) b heap !! a = Some (complete l' u))).
  { intros heap b l Hu (v & Hv & _ & Hev). destruct (decide (b = a)) as [->|Hne].
    - right. rewrite Hu in Hv. injection Hv as <-. split; [done|]. exists l.
      by rewrite list_lookup_alter_eq, Hu.
    - left. by rewrite list_lookup_alter_ne. }
  destruct act as [request p| |outcome]; simpl.
  - unfold handle_request, alloc, retrieve.
    destruct (response_cache s !! key p) as [l|]; simpl.
    { left. by rewrite lookup_app_l. }
    pose proof (put_or_exchange_exchanged
      (item_id (client_requests s ++ [ClientRequest_init request p (S (handler_cnt s))]))
      (queue s) (length (client_requests s))) as Hex.
    destruct (put_or_exchange _ _ _) as [[old|] queue1]; simpl in *.
    + apply Halter; [by rewrite lookup_app_l|]. apply unset_snoc, Hpend. by eexists.
    + left. by rewrite lookup_app_l.
  - unfold consumer_poll. destruct (consumer s); simpl; try by left.
    destruct (get_wf _ _ Hwf) as [[_ ->]|(rest & b & _ & Hitem & -> & _)]; [by left|].
    assert (unset (client_requests s) b) as Hb by (apply Hpend; by eexists).
    pose proof Hb as (v & -> & _). unfold retrieve.
    destruct (response_cache s !! key (request_payload v)); simpl; [|by left].
    by apply Halter.
  - unfold consumer_generate, alloc. destruct (consumer s) as [|b| |] eqn:Hc; simpl; try by left.
    destruct (Hheld b) as [Hb _]; [by left|]. pose proof Hb as (v & -> & _).
    destruct outcome; simpl; [by apply Halter|by apply Halter|by left].
Qed.

(** A step leaves a response as it is or marks it as served from the
    cache. *)
Lemma step_responses act s l r :
  api_responses s !! l = Some r →
  api_responses (step key act s).1 !! l = Some r ∨
  api_responses (step key act s).1 !! l = Some (set_is_cached_response r).
Proof.
  intros Hl.
  assert (Hlt : l < length (api_responses s)) by (by eapply lookup_lt_Some).
  assert (Hretr : ∀ p, (retrieve key p (response_cache s) (api_responses s)).2 !! l = Some r ∨
    (retrieve key p (response_cache s) (api_responses s)).2 !! l
    = Some (set_is_cached_response r)).
  { intros p. unfold retrieve. destruct (response_cache s !! key p) as [l'|]; simpl; [|by left].
    destruct (decide (l' = l)) as [->|Hne].
    - right. by rewrite list_lookup_alter_eq, Hl.
    - left. by rewrite list_lookup_alter_ne. }
  destruct act as [request p| |outcome]; simpl.
  - unfold handle_request, alloc. specialize (Hretr p).
    destruct (retrieve_result key p (response_cache s) (api_responses s)) as [_ Hlen].
    destruct (retrieve key p _ _) as [[c|] responses1]; simpl in *; [done|].
    destruct (put_or_exchange _ _ _) as [[old|] queue1]; simpl; [|done].
    rewrite lookup_app_l by lia. done.
  - unfold consumer_poll. destruct (consumer s); simpl; try by left.
    destruct (get (queue s)) as [b q1| |q1]; simpl; try by left.
    destruct (client_requests s !! b) as [v|]; simpl; [|by left].
    specialize (Hretr (request_payload v)).
    by destruct (retrieve key _ _ _) as [[c|] responses1].
  - unfold consumer_generate, alloc. destruct (consumer s); simpl; try by left.
    destruct (client_requests s !! a); simpl; [|by left].
    destruct outcome; simpl; left; by rewrite ?lookup_app_l.
Qed.

(** A step does not remove or replace an entry of the cache. *)
Lemma step_cache act s k l :
  Inv key s →
  response_cache s !! k = Some l →
  response_cache (step key act s).1 !! k = Some l.
Proof.
  intros (Hwf & Hpend & Hheld & _ & Hmiss & _) Hk.
  destruct act as [request p| |outcome]; simpl.
  - unfold handle_request, alloc, retrieve.
    destruct (response_cache s !! key p); simpl; [done|].
    by destruct (put_or_exchange _ _ _) as [[old|] queue1].
  - unfold consumer_poll. destruct (consumer s); simpl; try done.
    destruct (get (queue s)) as [b q1| |q1]; simpl; try done.
    destruct (client_requests s !! b) as [v|]; simpl; [|done].
    unfold retrieve. by destruct (response_cache s !! key (request_payload v)).
  - unfold consumer_generate, alloc. destruct (consumer s) as [|b| |] eqn:Hc; simpl; try done.
    destruct (client_requests s !! b) as [v|] eqn:Hv; simpl; [|done].
    destruct outcome; simpl; try done.
    unfold update. rewrite lookup_insert_ne; [done|].
    intros Heq. rewrite <- Heq in Hk. by rewrite (Hmiss b v) in Hk.
Qed.

Lemma run_cache_entry more s trace k l r :
  Inv key s → TraceInv s trace →
  response_cache s !! k = Some l →
  api_responses s !! l = Some r →
  response_cache (run key more s).1 !! k = Some l ∧
  ∃ r', api_responses (run key more s).1 !! l = Some r' ∧
        status r' = status r ∧
        generated_text r' = generated_text r ∧
        (is_cached_response r = true → is_cached_response r' = true).
Proof.
  intros HI HT Hk Hl.
  apply (run_preserves
    (λ s, response_cache s !! k = Some l ∧
          ∃ r', api_responses s !! l = Some r' ∧ status r' = status r ∧
                generated_text r' = generated_text r ∧
                (is_cached_response r = true → is_cached_response r' = true)))
    with (trace := trace); try done.
  - intros act s0 HI0 (Hk0 & r0 & Hl0 & Hst & Htx & Hmk). split; [by apply step_cache|].
    destruct (step_responses act s0 l r0 Hl0) as [Hsame|Hmarked]; eauto 6.
  - split; [done|]. by exists r.
Qed.

(** X1: a cache entry, once written, stays: in every state the handler
    reaches from there the fingerprint maps to the same response object, and
    that object has the status and the text it had; a marker that is set
    stays set. *)
Theorem cache_entries_are_permanent acts more k l r :
  let s := (exec key acts).1 in
  let s' := (run key more s).1 in
  response_cache s !! k = Some l →
  api_responses s !! l = Some r →
  response_cache s' !! k = Some l ∧
  ∃ r', api_responses s' !! l = Some r' ∧
        status r' = status r ∧
        generated_text r' = generated_text r ∧
        (is_cached_response r = true → is_cached_response r' = true).
Proof.
  intros s s' Hk Hl. destruct (exec_inv key acts) as [HI HT].
  by apply run_cache_entry with (exec key acts).2.
Qed.

Lemma run_completed more s trace a u :
  Inv key s → TraceInv s trace →
  client_requests s !! a = Some u →
  event u = true →
  client_requests (run key more s).1 !! a = Some u.
Proof.
  intros HI HT Ha Hev.
  apply (run_preserves (λ s, client_requests s !! a = Some u)) with (trace := trace);
    try done.
  intros act s0 HI0 Ha0.
  destruct (step_requests act s0 a u HI0 Ha0) as [?|[? _]]; [done|congruence].
Qed.

(** X2: a completed unit is never touched again: in every state the handler
    reaches from there the unit is what it was, and its caller, whenever it
    resumes, finds the result that was written. *)
Theorem completed_units_are_terminal acts more a u :
  let s := (exec key acts).1 in
  let s' := (run key more s).1 in
  client_requests s !! a = Some u →
  event u = true →
  client_requests s' !! a = Some u ∧
  handle_request_resume a s' = Some (api_response u).
Proof.
  intros s s' Ha Hev. destruct (exec_inv key acts) as [HI HT]. fold s in HI, HT.
  assert (client_requests s' !! a = Some u) as Ha'.
  { by apply run_completed with (exec key acts).2. }
  split; [done|]. unfold handle_request_resume. by rewrite Ha', Hev.
Qed.

Lemma step_sequence_numbers act s :
  handler_cnt s = length (client_requests s) →
  (∀ a u, client_requests s !! a = Some u →
          cnt u = S a ∧ client_id u = get_client_id (request u)) →
  handler_cnt (step key act s).1 = handler_cnt s + handled [act] ∧
  handler_cnt (step key act s).1 = length (client_requests (step key act s).1) ∧
  (∀ a u, client_requests (step key act s).1 !! a = Some u →
          cnt u = S a ∧ client_id u = get_client_id (request u)).
Proof.
  intros Hcnt Hall.
  assert (Halter : ∀ heap b l,
    (∀ a u, heap !! a = Some u → cnt u = S a ∧ client_id u = get_client_id (request u)) →
    ∀ a u, alter (complete l) b heap !! a = Some u →
           cnt u = S a ∧ client_id u = get_client_id (request u)).
  { intros heap b l Hheap a u. rewrite list_lookup_alter. case_decide as Hab; [subst b|by auto].
    destruct (heap !! a) as [v|] eqn:Hv; [|done]. intros [= <-]. simpl. by apply Hheap. }
  assert (Hsnoc : ∀ rq p a u,
    (client_requests s ++ [ClientRequest_init rq p (S (handler_cnt s))]) !! a = Some u →
    cnt u = S a ∧ client_id u = get_client_id (request u)).
  { intros rq p a u [[_ Ha]|[-> <-]]%lookup_snoc_Some; [by apply Hall|].
    simpl. by rewrite Hcnt. }
  destruct act as [rq p| |outcome]; simpl.
  - unfold handle_request, alloc, retrieve.
    destruct (response_cache s !! key p); simpl.
    { rewrite length_app. simpl. split; [lia|split; [lia|by apply Hsnoc]]. }
    destruct (put_or_exchange _ _ _) as [[old|] queue1]; simpl.
    + rewrite length_alter, length_app. simpl. split; [lia|split; [lia|]].
      apply Halter. by apply Hsnoc.
    + rewrite length_app. simpl. split; [lia|split; [lia|by apply Hsnoc]].
  - unfold consumer_poll. destruct (consumer s); simpl; try (split; [lia|done]).
    destruct (get (queue s)) as [b q1| |q1]; simpl; try (split; [lia|done]).
    destruct (client_requests s !! b) as [v|]; simpl; try (split; [lia|done]).
    unfold retrieve. destruct (response_cache s !! key (request_payload v)); simpl;
      try (split; [lia|done]).
    rewrite length_alter. split; [lia|split; [done|by apply Halter]].
  - unfold consumer_generate, alloc. destruct (consumer s); simpl; try (split; [lia|done]).
    destruct (client_requests s !! a); simpl; try (split; [lia|done]).
    destruct outcome; simpl; try (split; [lia|done]);
      rewrite length_alter; (split; [lia|split; [done|by apply Halter]]).
Qed.

Lemma run_sequence_numbers acts : ∀ s,
  handler_cnt s = length (client_requests s) →
  (∀ a u, client_requests s !! a = Some u →
          cnt u = S a ∧ client_id u = get_client_id (request u)) →
  handler_cnt (run key acts s).1 = handler_cnt s + handled acts ∧
  handler_cnt (run key acts s).1 = length (client_requests (run key acts s).1) ∧
  (∀ a u, client_requests (run key acts s).1 !! a = Some u →
          cnt u = S a ∧ client_id u = get_client_id (request u)).
Proof.
  induction acts as [|act acts IH]; intros s Hcnt Hall; simpl; [split; [lia|done]|].
  destruct (step_sequence_numbers act s Hcnt Hall) as (H1 & H2 & H3).
  destruct (step key act s) as [s1 evs1]. simpl in *.
  destruct (IH s1 H2 H3) as (H4 & H5 & H6).
  destruct (run key acts s1) as [s2 evs2]. simpl in *.
  split; [|done]. rewrite H4, H1. destruct act; lia.
Qed.

(** X3: the handler counts its calls, and every call creates one unit: after
    any run, [cnt] of the handler is the number of calls so far and the
    number of units created; the unit created by the n-th call carries the
    sequence number n, so no two units share one and none exceeds the
    handler's count; and the identity of a unit is the one its request
    gives. *)
Theorem sequence_numbers acts :
  let s := (exec key acts).1 in
  handler_cnt s = handled acts ∧
  length (client_requests s) = handled acts ∧
  (∀ a u, client_requests s !! a = Some u →
          cnt u = S a ∧ cnt u ≤ handler_cnt s ∧
          client_id u = get_client_id (request u)) ∧
  (∀ a b u v, client_requests s !! a = Some u → client_requests s !! b = Some v →
              cnt u = cnt v → a = b).
Proof.
  intros s.
  destruct (run_sequence_numbers acts RequestHandler_init) as (H1 & H2 & H3); [done|done|].
  fold (exec key acts) in H1, H2, H3. fold s in H1, H2, H3. simpl in H1.
  split; [done|split; [lia|split]].
  - intros a u Ha. destruct (H3 a u Ha) as [Hc Hid]. split; [done|split; [|done]].
    apply lookup_lt_Some in Ha. lia.
  - intros a b u v Ha Hb Heq. apply H3 in Ha as [Ha _]. apply H3 in Hb as [Hb _]. lia.
Qed.

(** X4: what the backend returned for a unit is what later calls with the
    same fingerprint get.  After a successful backend call, however the
    handler runs on, a call whose payload has the fingerprint of the served
    unit returns at once from the cache, with the very response object that
    was written into the served unit's slot; the object has the status and
    the text the backend gave it and is marked as served from the cache. *)
Theorem generated_response_is_served acts a u r more rq p :
  let s := (exec key acts).1 in
  let l := length (api_responses s) in
  let s1 := (consumer_generate key (Generated r) s).1 in
  let s2 := (run key more s1).1 in
  let new := length (client_requests s2) in
  consumer s = Generating a →
  client_requests s !! a = Some u →
  key p = key (request_payload u) →
  client_requests s2 !! a = Some (complete l u) ∧
  (handle_request key rq p s2).2 = [Created new; Returned new l] ∧
  ∃ r', api_responses (handle_request key rq p s2).1 !! l = Some r' ∧
        status r' = status r ∧
        generated_text r' = generated_text r ∧
        is_cached_response r' = true.
Proof.
  intros s l s1 s2 new Hc Hu Hkey.
  destruct (exec_inv key (acts ++ [ConsumerGenerate (Generated r)])) as [HI1 HT1].
  unfold exec in HI1, HT1. rewrite run_app in HI1, HT1. simpl in HI1, HT1.
  fold (exec key acts) in HI1, HT1. fold s in HI1, HT1.
  assert (Hs1 : consumer_generate key (Generated r) s =
    ({| queue := queue s;
        response_cache := update key (request_payload u) l (response_cache s);
        handler_cnt := handler_cnt s;
        client_requests := alter (complete l) a (client_requests s);
        api_responses := api_responses s ++ [r];
        consumer := Polling |},
     [Invoked (request_payload u); Completed a l])).
  { unfold consumer_generate, alloc. by rewrite Hc, Hu. }
  rewrite Hs1 in HI1, HT1. simpl in HI1, HT1.
  assert (Hs1' : s1 = (consumer_generate key (Generated r) s).1) by done.
  rewrite Hs1 in Hs1'. simpl in Hs1'. rewrite <- Hs1' in HI1, HT1.
  assert (Hk1 : response_cache s1 !! key p = Some l).
  { rewrite Hs1'. simpl. unfold update. by rewrite Hkey, lookup_insert_eq. }
  assert (Hl1 : api_responses s1 !! l = Some r).
  { rewrite Hs1'. simpl. by rewrite list_lookup_middle. }
  assert (Ha1 : client_requests s1 !! a = Some (complete l u)).
  { rewrite Hs1'. simpl. by rewrite list_lookup_alter_eq, Hu. }
  destruct (run_cache_entry more s1 _ (key p) l r HI1 HT1 Hk1 Hl1)
    as (Hk2 & r2 & Hl2 & Hst & Htx & _).
  fold s2 in Hk2, Hl2.
  split; [|split].
  - apply (run_preserves (λ s, client_requests s !! a = Some (complete l u)))
      with (trace := ((exec key acts).2 ++ [Invoked (request_payload u); Completed a l] ++ []));
      try done.
    intros act s0 HI0 Ha0.
    destruct (step_requests act s0 a _ HI0 Ha0) as [?|[? _]]; done.
  - unfold handle_request, alloc, retrieve. by rewrite Hk2.
  - unfold handle_request, alloc, retrieve. rewrite Hk2. simpl.
    exists (set_is_cached_response r2). by rewrite list_lookup_alter_eq, Hl2.
Qed.

(** X5: the cache finds a response under the fingerprint it was stored
    under, whichever payload with that fingerprint asks, and marks it; a
    lookup under another fingerprint is what it was before the store; and
    of two stores under one fingerprint the later one is what remains. *)
Theorem update_then_retrieve p p' l l0 (_cache : gmap Key nat) responses r :
  responses !! l = Some r →
  (key p' = key p →
   (retrieve key p' (update key p l _cache) responses).1 = Some l ∧
   (retrieve key p' (update key p l _cache) responses).2 !! l
   = Some (set_is_cached_response r)) ∧
  (key p' ≠ key p →
   retrieve key p' (update key p l _cache) responses = retrieve key p' _cache responses) ∧
  update key p l (update key p l0 _cache) = update key p l _cache.
Proof.
  intros Hl. unfold retrieve, update. split; [|split].
  - intros ->. rewrite lookup_insert_eq. simpl. by rewrite list_lookup_alter_eq, Hl.
  - intros Hne. by rewrite lookup_insert_ne.
  - apply insert_insert_eq.
Qed.

(** The step of a call that misses the cache, written out. *)
Lemma handle_request_submits rq p s :
  response_cache s !! key p = None →
  let new := length (client_requests s) in
  let unit := ClientRequest_init rq p (S (handler_cnt s)) in
  handle_request key rq p s =
    match _client_items (queue s) !! get_client_id rq with
    | Some old =>
        ({| queue := {| _queue := _queue (queue s);
                        _client_items :=
                          <[get_client_id rq := new]> (_client_items (queue s)) |};
            response_cache := response_cache s;
            handler_cnt := S (handler_cnt s);
            client_requests :=
              alter (complete (length (api_responses s))) old (client_requests s ++ [unit]);
            api_responses := api_responses s ++ [generate_default_api_response "" 429];
            consumer := consumer s |},
         [Created new; Exchanged (get_client_id rq) new old;
          Completed old (length (api_responses s))])
    | None =>
        ({| queue := {| _queue := _queue (queue s) ++ [get_client_id rq];
                        _client_items :=
                          <[get_client_id rq := new]> (_client_items (queue s)) |};
            response_cache := response_cache s;
            handler_cnt := S (handler_cnt s);
            client_requests := client_requests s ++ [unit];
            api_responses := api_responses s;
            consumer := consumer s |},
         [Created new; Appended (get_client_id rq) new])
    end.
Proof.
  intros Hmiss new unit. unfold handle_request, alloc, retrieve. rewrite Hmiss.
  unfold put_or_exchange. rewrite !item_id_new. simpl.
  by destruct (_client_items (queue s) !! get_client_id rq).
Qed.

(** X6: callers without credentials share one identity, whatever host they
    call from, and so cancel each other: of two calls without an
    [authorization] header that both miss the cache, the second, made while
    the first is still in the queue, completes the first with a response of
    status 429. *)
Theorem anonymous_callers_supersede_each_other acts rq1 rq2 p1 p2 :
  let s := (exec key acts).1 in
  let first := length (client_requests s) in
  let s1 := (handle_request key rq1 p1 s).1 in
  let s2 := (handle_request key rq2 p2 s1).1 in
  headers_get "authorization" (_headers rq1) = None →
  headers_get "authorization" (_headers rq2) = None →
  response_cache s !! key p1 = None →
  response_cache s !! key p2 = None →
  ∃ l r,
    (handle_request key rq2 p2 s1).2
      = [Created (S first); Exchanged "" (S first) first; Completed first l] ∧
    api_responses s2 !! l = Some r ∧ status r = 429%Z ∧
    handle_request_resume first s2 = Some (Some l).
Proof.
  intros s first s1 s2 Hanon1 Hanon2 Hmiss1 Hmiss2.
  destruct (exec_inv key acts) as [(Hwf & Hpend & _) _]. fold s in Hwf, Hpend.
  assert (Hid1 : get_client_id rq1 = "") by (unfold get_client_id; by rewrite Hanon1).
  assert (Hid2 : get_client_id rq2 = "") by (unfold get_client_id; by rewrite Hanon2).
  pose proof (handle_request_submits rq1 p1 s Hmiss1) as Hs1. simpl in Hs1.
  rewrite Hid1 in Hs1. fold first in Hs1.
  set (unit := ClientRequest_init rq1 p1 (S (handler_cnt s))) in *.
  assert (Hfacts : response_cache s1 = response_cache s ∧
                   _client_items (queue s1) !! "" = Some first ∧
                   client_requests s1 !! first = Some unit ∧
                   length (client_requests s1) = S first).
  { subst s1. rewrite Hs1. destruct (_client_items (queue s) !! "") as [old|] eqn:Hold; simpl.
    - assert (old < first) as Hlt.
      { apply unset_lt, Hpend. by eexists. }
      rewrite lookup_insert_eq, length_alter, length_app, list_lookup_alter_ne by lia.
      rewrite list_lookup_middle by done. simpl. repeat split; try done. lia.
    - rewrite lookup_insert_eq, length_app, list_lookup_middle by done.
      simpl. repeat split; try done. lia. }
  destruct Hfacts as (Hc1 & Hq1 & Hu1 & Hlen1).
  assert (Hmiss2' : response_cache s1 !! key p2 = None) by (by rewrite Hc1).
  pose proof (handle_request_submits rq2 p2 s1 Hmiss2') as Hs2. simpl in Hs2.
  rewrite Hid2, Hq1, Hlen1 in Hs2.
  exists (length (api_responses s1)), (generate_default_api_response "" 429).
  subst s2. rewrite Hs2. simpl. split; [done|]. split; [by rewrite list_lookup_middle|].
  split; [done|]. unfold handle_request_resume. simpl.
  rewrite list_lookup_alter_eq, lookup_app_l by (rewrite Hlen1; lia).
  by rewrite Hu1.
Qed.

Lemma string_app_assoc (a b c : string) : (a +:+ b) +:+ c = a +:+ b +:+ c.
Proof.
  induction a as [|ch a IH]; [reflexivity|].
  change (String ch ((a +:+ b) +:+ c) = String ch (a +:+ b +:+ c)). by rewrite IH.
Qed.

(** X7: the identity is the credential and the host written one after the
    other, with nothing in between, so that it does not tell where the one
    ends and the other begins: a credential [c1 ++ c2] from host [h] and a
    credential [c1] from host [c2 ++ h] are one identity. *)
Theorem identity_runs_credential_and_host_together rq1 rq2 c1 c2 h :
  headers_get "authorization" (_headers rq1) = Some ("Bearer " +:+ c1 +:+ c2) →
  host (client rq1) = h →
  headers_get "authorization" (_headers rq2) = Some ("Bearer " +:+ c1) →
  host (client rq2) = c2 +:+ h →
  get_client_id rq1 = get_client_id rq2.
Proof.
  intros H1 <- H2 Hh. unfold get_client_id. rewrite H1, H2, Hh, !startswith_app.
  change 7 with (String.length "Bearer ").
  rewrite (slice_from_app "Bearer " (c1 +:+ c2)), (slice_from_app "Bearer " c1).
  apply string_app_assoc.
Qed.

(** What a step does to the units in the queue. *)
Lemma step_pending act s :
  Inv key s →
  (∀ x, pending (queue (step key act s).1) x →
        pending (queue s) x ∨ x = length (client_requests s)) ∧
  (∀ i x, Dequeued i x ∈ (step key act s).2 →
          pending (queue s) x ∧ ¬ pending (queue (step key act s).1) x ∧
          ∀ j a old, Exchanged j a old ∉ (step key act s).2) ∧
  (∀ i a old, Exchanged i a old ∈ (step key act s).2 →
              pending (queue s) old ∧ ¬ pending (queue (step key act s).1) old) ∧
  length (client_requests s) ≤ length (client_requests (step key act s).1).
Proof.
  intros HI. pose proof HI as (Hwf & Hpend & Hheld & _).
  destruct act as [rq p| |outcome]; simpl.
  - destruct (response_cache s !! key p) as [l|] eqn:Hl.
    { unfold handle_request, alloc, retrieve. rewrite Hl. simpl.
      split; [by left|].
      split; [intros i x Hin; set_unfold in Hin; by destruct Hin as [?|[?|[]]]|].
      rewrite length_app. simpl. split; [|lia]. intros i a old Hin. set_unfold in Hin.
      by destruct Hin as [?|[?|[]]]. }
    rewrite (handle_request_submits rq p s Hl).
    assert (Hins : ∀ x, pending {| _queue := _queue (queue s);
                     _client_items := <[get_client_id rq := length (client_requests s)]>
                                        (_client_items (queue s)) |} x →
                   x = length (client_requests s) ∨
                   (pending (queue s) x ∧
                    _client_items (queue s) !! get_client_id rq ≠ Some x)).
    { intros x [i Hi]. simpl in Hi. destruct (decide (get_client_id rq = i)) as [<-|Hne].
      - rewrite lookup_insert_eq in Hi. left. congruence.
      - rewrite lookup_insert_ne in Hi by done. right. split; [by exists i|].
        intros Hold. destruct Hwf as (_ & _ & Hid).
        apply Hne. by rewrite <- (Hid _ _ Hi), <- (Hid _ _ Hold). }
    destruct (_client_items (queue s) !! get_client_id rq) as [old|] eqn:Hold; simpl.
    + split; [|split; [|split]].
      * intros x [->|[? _]]%Hins; [by right|by left].
      * intros i x Hin. set_unfold in Hin. by destruct Hin as [?|[?|[?|[]]]].
      * intros i a old' Hin. set_unfold in Hin.
        destruct Hin as [?|[[= -> -> ->]|[?|[]]]]; try done.
        assert (pending (queue s) old) as Hp by (by eexists).
        split; [done|]. intros [->|[_ Hne]]%Hins; [|done].
        apply Hpend, unset_lt in Hp. lia.
      * rewrite length_alter, length_app. lia.
    + split; [|split; [|split]].
      * intros x [i Hi]. simpl in Hi.
        destruct (decide (get_client_id rq = i)) as [<-|Hne].
        -- rewrite lookup_insert_eq in Hi. right. congruence.
        -- rewrite lookup_insert_ne in Hi by done. left. by exists i.
      * intros i x Hin. set_unfold in Hin. by destruct Hin as [?|[?|[]]].
      * intros i a old' Hin. set_unfold in Hin. by destruct Hin as [?|[?|[]]].
      * rewrite length_app. lia.
  - assert (Hidle : ∀ evs : list (Event (RequestPayload:=RequestPayload)),
      evs = [] →
      (∀ x, pending (queue s) x → pending (queue s) x ∨ x = length (client_requests s)) ∧
      (∀ i x, Dequeued i x ∈ evs →
              pending (queue s) x ∧ ¬ pending (queue s) x ∧
              ∀ j a old, Exchanged j a old ∉ evs) ∧
      (∀ i a old, Exchanged i a old ∈ evs → pending (queue s) old ∧ ¬ pending (queue s) old) ∧
      length (client_requests s) ≤ length (client_requests s)).
    { intros evs ->. split; [by left|]. split; [by intros ?? ?%elem_of_nil|].
      split; [by intros ??? ?%elem_of_nil|lia]. }
    unfold consumer_poll. destruct (consumer s); simpl; try by apply Hidle.
    destruct (get_wf _ _ Hwf) as [[_ Hs]|(rest & a & _ & Hitem & Hg & _)].
    { rewrite Hs. by apply Hidle. }
    destruct (pending_get _ _ _ _ Hwf Hg) as [Hpa Hp]. rewrite Hg.
    destruct (Hpend _ Hpa) as (u & Hu & _). rewrite Hu. unfold retrieve.
    destruct (response_cache s !! key (request_payload u)); simpl.
    + split; [by intros x [? _]%Hp; left|]. split; [|split; [|by rewrite length_alter]].
      * intros i x Hin. set_unfold in Hin. destruct Hin as [[= -> ->]|[?|[]]]; [|done].
        split; [done|]. split; [by intros [_ ?]%Hp|].
        intros j b old Hex. set_unfold in Hex. by destruct Hex as [?|[?|[]]].
      * intros i b old Hin. set_unfold in Hin. by destruct Hin as [?|[?|[]]].
    + split; [by intros x [? _]%Hp; left|]. split; [|split; [|done]].
      * intros i x Hin. set_unfold in Hin. destruct Hin as [[= -> ->]|[]].
        split; [done|]. split; [by intros [_ ?]%Hp|].
        intros j b old Hex. set_unfold in Hex. by destruct Hex as [?|[]].
      * intros i b old Hin. set_unfold in Hin. by destruct Hin as [?|[]].
  - destruct (consumer_generate_queue key outcome s) as (Hq & Hnd & _). rewrite Hq.
    split; [by left|]. split; [intros i x Hin; by destruct (Hnd i x)|].
    unfold consumer_generate, alloc.
    destruct (consumer s); simpl; try (split; [by intros ??? ?%elem_of_nil|lia]).
    destruct (client_requests s !! a); simpl; try (split; [by intros ??? ?%elem_of_nil|lia]).
    destruct outcome; simpl; rewrite ?length_alter;
      (split; [|lia]); intros i b old Hin; set_unfold in Hin;
      repeat (destruct Hin as [Hin|Hin]; try done).
Qed.

Lemma run_superseded acts : ∀ s trace,
  Inv key s → TraceInv s trace →
  (∀ i x, Dequeued i x ∈ trace →
          x < length (client_requests s) ∧ ¬ pending (queue s) x) →
  (∀ i a old, Exchanged i a old ∈ trace →
              old < length (client_requests s) ∧ ¬ pending (queue s) old ∧
              ∀ j, Dequeued j old ∉ trace) →
  ∀ i a old, Exchanged i a old ∈ trace ++ (run key acts s).2 →
             ∀ j, Dequeued j old ∉ trace ++ (run key acts s).2.
Proof.
  induction acts as [|act acts IH]; intros s trace HI HT Hdeq Hexc; simpl.
  { rewrite app_nil_r. intros i a old Hin. by apply (Hexc i a old). }
  destruct (step_inv key act s trace HI HT) as [HI1 HT1].
  destruct (step_pending act s HI) as (Hp & Hd & Hx & Hlen).
  assert (Hlt : ∀ x, pending (queue s) x → x < length (client_requests s)).
  { intros x Hx0. apply unset_lt. destruct HI as (_ & Hpend & _). by apply Hpend. }
  destruct (step key act s) as [s1 evs1]. simpl in *.
  specialize (IH s1 (trace ++ evs1) HI1 HT1).
  destruct (run key acts s1) as [s2 evs2]. simpl in *.
  rewrite app_assoc. apply IH.
  - intros i x [Hin|Hin]%elem_of_app.
    + destruct (Hdeq i x Hin) as [Hx1 Hx2]. split; [lia|].
      intros [?| ->]%Hp; [done|lia].
    + destruct (Hd i x Hin) as (Hx1 & Hx2 & _). split; [|done]. apply Hlt in Hx1. lia.
  - intros i a old [Hin|Hin]%elem_of_app.
    + destruct (Hexc i a old Hin) as (Hx1 & Hx2 & Hx3). split; [lia|]. split.
      * intros [?| ->]%Hp; [done|lia].
      * intros j [Hj|Hj]%elem_of_app; [by apply (Hx3 j)|].
        by destruct (Hd j old Hj) as (? & _).
    + destruct (Hx i a old Hin) as [Hx1 Hx2]. split; [apply Hlt in Hx1; lia|].
      split; [done|]. intros j [Hj|Hj]%elem_of_app.
      * by destruct (Hdeq j old Hj) as [_ ?].
      * destruct (Hd j old Hj) as (_ & _ & Hno). by apply (Hno i a old).
Qed.

(** X8: a unit that was replaced in the queue never reaches the consumer
    loop: in no run is a unit both superseded and taken by [get]. *)
Theorem superseded_unit_is_never_dequeued acts i a old :
  Exchanged i a old ∈ (exec key acts).2 →
  ∀ j, Dequeued j old ∉ (exec key acts).2.
Proof.
  destruct (@Inv_init _ _ _ _ key) as [HI HT].
  apply (run_superseded acts RequestHandler_init [] HI HT).
  - by intros ?? ?%elem_of_nil.
  - by intros ??? ?%elem_of_nil.
Qed.

Lemma step_failed act s a :
  consumer s = Failed a →
  consumer (step key act s).1 = Failed a ∧
  response_cache (step key act s).1 = response_cache s ∧
  (∀ i x, Dequeued i x ∉ (step key act s).2) ∧
  (∀ p, Invoked p ∉ (step key act s).2) ∧
  (∀ x l, Completed x l ∈ (step key act s).2 →
          ∃ i new, Exchanged i new x ∈ (step key act s).2).
Proof.
  intros Hc. destruct act as [rq p| |outcome]; simpl.
  - unfold handle_request, alloc, retrieve.
    destruct (response_cache s !! key p); simpl.
    { do 2 (split; [done|]). split; [intros; not_in_events|].
      split; [intros; not_in_events|]. intros x l' Hin. set_unfold in Hin.
      by destruct Hin as [?|[?|[]]]. }
    destruct (put_or_exchange _ _ _) as [[old|] queue1]; simpl.
    + do 2 (split; [done|]). split; [intros; not_in_events|].
      split; [intros; not_in_events|]. intros x l' Hin. set_unfold in Hin.
      destruct Hin as [?|[?|[[= -> ->]|[]]]]; try done. eexists _, _. in_events.
    + do 2 (split; [done|]). split; [intros; not_in_events|].
      split; [intros; not_in_events|]. intros x l' Hin. set_unfold in Hin.
      by destruct Hin as [?|[?|[]]].
  - unfold consumer_poll. rewrite Hc. simpl. do 2 (split; [done|]).
    split; [intros; apply not_elem_of_nil|]. split; [intros; apply not_elem_of_nil|].
    by intros ?? ?%elem_of_nil.
  - unfold consumer_generate. rewrite Hc. simpl. do 2 (split; [done|]).
    split; [intros; apply not_elem_of_nil|]. split; [intros; apply not_elem_of_nil|].
    by intros ?? ?%elem_of_nil.
Qed.

Lemma run_failed acts a : ∀ s,
  consumer s = Failed a →
  consumer (run key acts s).1 = Failed a ∧
  response_cache (run key acts s).1 = response_cache s ∧
  (∀ i x, Dequeued i x ∉ (run key acts s).2) ∧
  (∀ p, Invoked p ∉ (run key acts s).2) ∧
  (∀ x l, Completed x l ∈ (run key acts s).2 →
          ∃ i new, Exchanged i new x ∈ (run key acts s).2).
Proof.
  induction acts as [|act acts IH]; intros s Hc; simpl.
  { do 2 (split; [done|]). split; [intros; apply not_elem_of_nil|].
    split; [intros; apply not_elem_of_nil|]. by intros ?? ?%elem_of_nil. }
  destruct (step_failed act s a Hc) as (Hc1 & Hk1 & Hd1 & Hi1 & Hx1).
  destruct (step key act s) as [s1 evs1]. simpl in *.
  destruct (IH s1 Hc1) as (Hc2 & Hk2 & Hd2 & Hi2 & Hx2).
  destruct (run key acts s1) as [s2 evs2]. simpl in *.
  split; [done|]. split; [congruence|].
  split; [intros i x [?|?]%elem_of_app; [by eapply Hd1|by eapply Hd2]|].
  split; [intros p [?|?]%elem_of_app; [by eapply Hi1|by eapply Hi2]|].
  intros x l [Hin|Hin]%elem_of_app.
  - destruct (Hx1 x l Hin) as (i & new & Hex). exists i, new. apply elem_of_app. by left.
  - destruct (Hx2 x l Hin) as (i & new & Hex). exists i, new. apply elem_of_app. by right.
Qed.

(** X9: once the backend has raised an error that is not a
    [GeneratorException], the consumer loop is gone for good.  In every run
    from there no unit is taken from the queue and the backend is not
    called; the cache stays as it is; the caller of the unit that was being
    served waits without end; and a unit is completed only by being
    superseded. *)
Theorem failed_consumer_serves_no_more acts more a :
  let s := (exec key acts).1 in
  let s' := (run key more s).1 in
  let trace' := (run key more s).2 in
  consumer s = Failed a →
  consumer s' = Failed a ∧
  response_cache s' = response_cache s ∧
  (∀ i x, Dequeued i x ∉ trace') ∧
  (∀ p, Invoked p ∉ trace') ∧
  (∀ x l, Completed x l ∈ trace' → ∃ i new, Exchanged i new x ∈ trace') ∧
  handle_request_resume a s' = None.
Proof.
  intros s s' trace' Hc.
  destruct (run_failed more a s Hc) as (Hc' & Hk & Hd & Hi & Hx).
  do 5 (split; [done|]).
  destruct (exec_inv key (acts ++ more)) as [(_ & _ & Hheld & _) _].
  unfold exec in Hheld. rewrite run_app in Hheld. simpl in Hheld.
  fold (exec key acts) in Hheld. fold s in Hheld. fold s' in Hheld.
  apply resume_unset. apply Hheld. by right.
Qed.

Lemma count_events_app kind trace1 trace2 :
  count_events kind (trace1 ++ trace2) = count_events kind trace1 + count_events kind trace2.
Proof. induction trace1 as [|e trace1 IH]; simpl; [done|]. rewrite IH. lia. Qed.

Lemma step_counts act s :
  Inv key s →
  count_events is_appended (step key act s).2 + length (_queue (queue s))
  = count_events is_dequeued (step key act s).2 + length (_queue (queue (step key act s).1)) ∧
  count_events is_invoked (step key act s).2 + generating (consumer (step key act s).1)
  ≤ count_events is_dequeued (step key act s).2 + generating (consumer s) ∧
  count_events is_appended (step key act s).2 ≤ handled [act].
Proof.
  intros HI. destruct act as [rq p| |outcome]; simpl.
  - destruct (response_cache s !! key p) as [l|] eqn:Hl.
    { unfold handle_request, alloc, retrieve. rewrite Hl. simpl. lia. }
    rewrite (handle_request_submits rq p s Hl).
    destruct (_client_items (queue s) !! get_client_id rq); simpl;
      rewrite ?length_app; simpl; lia.
  - destruct (consumer_poll_queue key s HI)
      as [->|(a & u & rest & Hc & _ & _ & Hq & Hq' & Hev)]; [simpl; lia|].
    rewrite Hq, Hq', Hc.
    destruct Hev as [[[l ->] ->]|[-> ->]]; simpl; lia.
  - destruct (consumer_generate_queue key outcome s) as (-> & _).
    unfold consumer_generate, alloc.
    destruct (consumer s) as [|b|b|] eqn:Hc; simpl; rewrite ?Hc; simpl; try lia.
    destruct (client_requests s !! b); simpl; rewrite ?Hc; simpl; try lia.
    destruct outcome; simpl; lia.
Qed.

Lemma run_counts acts : ∀ s trace,
  Inv key s → TraceInv s trace →
  count_events is_appended (run key acts s).2 + length (_queue (queue s))
  = count_events is_dequeued (run key acts s).2 + length (_queue (queue (run key acts s).1)) ∧
  count_events is_invoked (run key acts s).2 + generating (consumer (run key acts s).1)
  ≤ count_events is_dequeued (run key acts s).2 + generating (consumer s) ∧
  count_events is_appended (run key acts s).2 ≤ handled acts.
Proof.
  induction acts as [|act acts IH]; intros s trace HI HT; simpl; [lia|].
  destruct (step_inv key act s trace HI HT) as [HI1 HT1].
  destruct (step_counts act s HI) as (H1 & H2 & H3).
  destruct (step key act s) as [s1 evs1]. simpl in *.
  destruct (IH s1 _ HI1 HT1) as (H4 & H5 & H6).
  destruct (run key acts s1) as [s2 evs2]. simpl in *.
  rewrite !count_events_app. destruct act; lia.
Qed.

(** X10: calls that supersede add no work.  In every run the backend is
    called at most once for each unit the consumer loop took, the loop took
    as many units as identities were appended to the deque, less those
    still in it, and at most one identity is appended per call. *)
Theorem backend_work_is_bounded acts :
  let s := (exec key acts).1 in
  let trace := (exec key acts).2 in
  count_events is_invoked trace ≤ count_events is_dequeued trace ∧
  count_events is_appended trace
  = count_events is_dequeued trace + length (_queue (queue s)) ∧
  count_events is_appended trace ≤ handled acts.
Proof.
  intros s trace. destruct (@Inv_init _ _ _ _ key) as [HI HT].
  destruct (run_counts acts RequestHandler_init [] HI HT) as (H1 & H2 & H3).
  fold (exec key acts) in H1, H2, H3. fold s in H1, H2. fold trace in H1, H2, H3.
  simpl in H1, H2. lia.
Qed.

(** A response object that is not in the cache is not put there later and
    is not changed. *)
Lemma step_uncached act s l r :
  Inv key s →
  api_responses s !! l = Some r →
  (∀ k, response_cache s !! k ≠ Some l) →
  api_responses (step key act s).1 !! l = Some r ∧
  (∀ k, response_cache (step key act s).1 !! k ≠ Some l).
Proof.
  intros HI Hl Hno.
  assert (Hlt : l < length (api_responses s)) by (by eapply lookup_lt_Some).
  assert (Hretr : ∀ p, (retrieve key p (response_cache s) (api_responses s)).2 !! l = Some r).
  { intros p. unfold retrieve. destruct (response_cache s !! key p) as [l'|] eqn:Hl'; [|done].
    simpl. rewrite list_lookup_alter_ne; [done|]. intros ->. by apply (Hno (key p)). }
  destruct act as [rq p| |outcome]; simpl.
  - unfold handle_request, alloc. specialize (Hretr p).
    destruct (retrieve_result key p (response_cache s) (api_responses s)) as [_ Hlen].
    destruct (retrieve key p _ _) as [[c|] responses1]; simpl in *; [done|].
    destruct (put_or_exchange _ _ _) as [[old|] queue1]; simpl; [|done].
    by rewrite lookup_app_l by lia.
  - unfold consumer_poll. destruct (consumer s); simpl; try done.
    destruct (get (queue s)) as [b q1| |q1]; simpl; try done.
    destruct (client_requests s !! b) as [v|]; simpl; [|done].
    specialize (Hretr (request_payload v)).
    by destruct (retrieve key _ _ _) as [[c|] responses1].
  - unfold consumer_generate, alloc. destruct (consumer s) as [|b| |]; simpl; try done.
    destruct (client_requests s !! b) as [v|]; simpl; [|done].
    destruct outcome; simpl; [|split; [by rewrite lookup_app_l|done]|done].
    split; [by rewrite lookup_app_l|]. intros k. unfold update.
    destruct (decide (key (request_payload v) = k)) as [<-|Hne].
    + rewrite lookup_insert_eq. intros [= Heq]. lia.
    + by rewrite lookup_insert_ne.
Qed.

Lemma run_uncached more s trace l r :
  Inv key s → TraceInv s trace →
  api_responses s !! l = Some r →
  (∀ k, response_cache s !! k ≠ Some l) →
  api_responses (run key more s).1 !! l = Some r ∧
  (∀ k, response_cache (run key more s).1 !! k ≠ Some l).
Proof.
  intros HI HT Hl Hno.
  apply (run_preserves
    (λ s, api_responses s !! l = Some r ∧ ∀ k, response_cache s !! k ≠ Some l))
    with (trace := trace); try done.
  intros act s0 HI0 [Hl0 Hno0]. by apply step_uncached.
Qed.

(** No call returns from the cache with a response that is not in it. *)
Lemma run_uncached_not_returned more : ∀ s trace l r,
  Inv key s → TraceInv s trace →
  api_responses s !! l = Some r →
  (∀ k, response_cache s !! k ≠ Some l) →
  ∀ a, Returned a l ∉ (run key more s).2.
Proof.
  induction more as [|act more IH]; intros s1 trace1 l r HI1 HT1 Hl1 Hno1 a; simpl.
  { apply not_elem_of_nil. }
  destruct (step_inv key act s1 _ HI1 HT1) as [HI2 HT2].
  destruct (step_uncached act s1 l _ HI1 Hl1 Hno1) as [Hl2 Hno2].
  assert (Hstep : Returned a l ∉ (step key act s1).2).
  { destruct act as [rq' p'| |outcome]; simpl.
    - unfold handle_request, alloc, retrieve.
      destruct (response_cache s1 !! key p') as [c|] eqn:Hc; simpl.
      + intros Hin. set_unfold in Hin. destruct Hin as [?|[[= _ ->]|[]]]; [done|].
        by apply (Hno1 (key p')).
      + destruct (put_or_exchange _ _ _) as [[old'|] queue1]; simpl;
          intros Hin; set_unfold in Hin; repeat (destruct Hin as [Hin|Hin]; try done).
    - unfold consumer_poll.
      destruct (consumer s1); simpl; try apply not_elem_of_nil.
      destruct (get (queue s1)) as [b q1| |q1]; simpl; try apply not_elem_of_nil.
      destruct (client_requests s1 !! b) as [v|]; simpl; try apply not_elem_of_nil.
      destruct (retrieve key _ _ _) as [[c|] responses1]; simpl;
        intros Hin; set_unfold in Hin; repeat (destruct Hin as [Hin|Hin]; try done).
    - unfold consumer_generate, alloc.
      destruct (consumer s1) as [|b| |]; simpl; try apply not_elem_of_nil.
      destruct (client_requests s1 !! b) as [v|]; simpl; try apply not_elem_of_nil.
      destruct outcome; simpl;
        intros Hin; set_unfold in Hin; repeat (destruct Hin as [Hin|Hin]; try done). }
  destruct (step key act s1) as [s2 evs2]. simpl in *.
  specialize (IH s2 _ l r HI2 HT2 Hl2 Hno2 a).
  destruct (run key more s2) as [s3 evs3]. simpl in *.
  by intros [Hin|Hin]%elem_of_app.
Qed.

(** X11: the response that rejects a superseded unit belongs to that unit
    alone.  It is never stored in the cache, no call ever returns from the
    cache with it, and it stays what it was when it was written: status 429,
    empty text, not marked as served from the cache. *)
Theorem rejection_is_never_cached acts rq p old more :
  let s := (exec key acts).1 in
  let rejection := length (api_responses s) in
  let s' := (run key more (handle_request key rq p s).1).1 in
  response_cache s !! key p = None →
  _client_items (queue s) !! get_client_id rq = Some old →
  api_responses s' !! rejection = Some (generate_default_api_response "" 429) ∧
  (∀ k, response_cache s' !! k ≠ Some rejection) ∧
  (∀ a, Returned a rejection ∉ (run key more (handle_request key rq p s).1).2).
Proof.
  intros s rejection s' Hmiss Hold.
  destruct (exec_inv key acts) as [HI HT]. fold s in HI, HT.
  destruct (handle_request_inv key rq p s _ HI HT) as [HI1 HT1].
  pose proof HI as (_ & _ & _ & _ & _ & Hcache).
  pose proof (handle_request_submits rq p s Hmiss) as Hs1. simpl in Hs1. rewrite Hold in Hs1.
  assert (Hl1 : api_responses (handle_request key rq p s).1 !! rejection
                = Some (generate_default_api_response "" 429)).
  { rewrite Hs1. simpl. by rewrite list_lookup_middle. }
  assert (Hno1 : ∀ k, response_cache (handle_request key rq p s).1 !! k ≠ Some rejection).
  { rewrite Hs1. simpl. intros k Hk. apply Hcache in Hk. unfold rejection in Hk. lia. }
  destruct (run_uncached more _ _ rejection _ HI1 HT1 Hl1 Hno1) as [Hl' Hno'].
  split; [done|split; [done|]].
  by eapply run_uncached_not_returned.
Qed.

(** X12: the response that reports a backend error belongs to the unit that
    was being served alone.  It is never stored in the cache, no call ever
    returns from the cache with it, and it stays what it was: status 400,
    the error text, not marked as served from the cache. *)
Theorem error_response_is_never_cached acts a u message more :
  let s := (exec key acts).1 in
  let l := length (api_responses s) in
  let s' := (run key more (consumer_generate key (GeneratorException message) s).1).1 in
  consumer s = Generating a →
  client_requests s !! a = Some u →
  client_requests s' !! a = Some (complete l u) ∧
  api_responses s' !! l = Some (generate_default_api_response message 400) ∧
  (∀ k, response_cache s' !! k ≠ Some l) ∧
  (∀ b, Returned b l ∉
          (run key more (consumer_generate key (GeneratorException message) s).1).2).
Proof.
  intros s l s' Hc Hu.
  destruct (exec_inv key acts) as [HI HT]. fold s in HI, HT.
  destruct (consumer_generate_inv key (GeneratorException message) s _ HI HT) as [HI1 HT1].
  pose proof HI as (_ & _ & _ & _ & _ & Hcache).
  assert (Hs1 : consumer_generate key (GeneratorException message) s =
    ({| queue := queue s;
        response_cache := response_cache s;
        handler_cnt := handler_cnt s;
        client_requests := alter (complete l) a (client_requests s);
        api_responses := api_responses s ++ [generate_default_api_response message 400];
        consumer := Polling |},
     [Invoked (request_payload u); Completed a l])).
  { unfold consumer_generate, alloc. by rewrite Hc, Hu. }
  assert (Hl1 : api_responses (consumer_generate key (GeneratorException message) s).1 !! l
                = Some (generate_default_api_response message 400)).
  { rewrite Hs1. simpl. by rewrite list_lookup_middle. }
  assert (Hno1 : ∀ k, response_cache (consumer_generate key (GeneratorException message) s).1
                      !! k ≠ Some l).
  { rewrite Hs1. simpl. intros k Hk. apply Hcache in Hk. unfold l in Hk. lia. }
  assert (Ha1 : client_requests (consumer_generate key (GeneratorException message) s).1 !! a
                = Some (complete l u)).
  { rewrite Hs1. simpl. by rewrite list_lookup_alter_eq, Hu. }
  destruct (run_uncached more _ _ l _ HI1 HT1 Hl1 Hno1) as [Hl' Hno'].
  split; [|split; [done|split; [done|by eapply run_uncached_not_returned]]].
  apply (run_preserves (λ s, client_requests s !! a = Some (complete l u)))
    with (trace := (exec key acts).2 ++
                   (consumer_generate key (GeneratorException message) s).2); try done.
  intros act s0 HI0 Ha0.
  destruct (step_requests act s0 a _ HI0 Ha0) as [?|[? _]]; done.
Qed.

(** Calls of one identity in a row, while a unit of that identity is in the
    queue: each replaces the unit before it. *)
Lemma calls_exchange A rqs : ∀ s trace cur,
  Inv key s → TraceInv s trace →
  _client_items (queue s) !! A = Some cur →
  Forall (λ c, get_client_id c.1 = A ∧ response_cache s !! key c.2 = None) rqs →
  let s' := (run key (calls rqs) s).1 in
  let base := length (client_requests s) in
  _client_items (queue s') !! A
    = Some (match rqs with [] => cur | _ => base + length rqs - 1 end) ∧
  _queue (queue s') = _queue (queue s) ∧
  (∀ p, Invoked p ∉ (run key (calls rqs) s).2) ∧
  (rqs ≠ [] →
   ∃ l, completed_with (client_requests s') cur l ∧
        api_responses s' !! l = Some (generate_default_api_response "" 429)) ∧
  (∀ j, S j < length rqs →
   ∃ l, completed_with (client_requests s') (base + j) l ∧
        api_responses s' !! l = Some (generate_default_api_response "" 429)).
Proof.
  induction rqs as [|[rq p] rqs IH]; intros s trace cur HI HT Hcur Hall; simpl.
  { split; [done|]. split; [done|]. split; [intros; apply not_elem_of_nil|].
    split; [done|]. intros j ?. lia. }
  apply Forall_cons in Hall as [[Hid Hmiss] Hall]. simpl in Hid, Hmiss.
  destruct (handle_request_inv key rq p s _ HI HT) as [HI1 HT1].
  pose proof HI as (_ & Hpend & _ & _ & _ & Hcache).
  pose proof (handle_request_submits rq p s Hmiss) as Hs1. simpl in Hs1.
  rewrite Hid, Hcur in Hs1.
  destruct (Hpend cur) as (u & Hu & Hslot & Hev); [by eexists|].
  assert (Hlt : cur < length (client_requests s)) by (by eapply lookup_lt_Some).
  rewrite Hs1 in HI1, HT1 |- *. simpl in HI1, HT1 |- *.
  match type of HI1 with Inv key ?st => set (s1 := st) in * end.
  assert (Hcur1 : _client_items (queue s1) !! A = Some (length (client_requests s))).
  { simpl. by rewrite lookup_insert_eq. }
  assert (Hlen1 : length (client_requests s1) = S (length (client_requests s))).
  { simpl. rewrite length_alter, length_app. simpl. lia. }
  destruct (IH s1 _ (length (client_requests s)) HI1 HT1 Hcur1) as (H1 & H2 & H3 & H4 & H5).
  { eapply Forall_impl; [exact Hall|]. by intros c [? ?]. }
  assert (Hdone1 : client_requests s1 !! cur = Some (complete (length (api_responses s)) u)).
  { simpl. by rewrite list_lookup_alter_eq, lookup_app_l, Hu. }
  assert (Hrej1 : api_responses s1 !! length (api_responses s)
                  = Some (generate_default_api_response "" 429)).
  { simpl. by rewrite list_lookup_middle. }
  assert (Hno1 : ∀ k, response_cache s1 !! k ≠ Some (length (api_responses s))).
  { simpl. intros k Hk%Hcache. lia. }
  pose proof (run_completed (calls rqs) s1 _ _ _ HI1 HT1 Hdone1 eq_refl) as Hdone.
  destruct (run_uncached (calls rqs) s1 _ _ _ HI1 HT1 Hrej1 Hno1) as [Hrej _].
  destruct (run key (calls rqs) s1) as [s2 evs2]. simpl in *.
  rewrite Hlen1 in H1, H5.
  split; [|split; [done|split; [|split]]].
  - rewrite H1. f_equal. destruct rqs; simpl; lia.
  - intros p' Hin. set_unfold in Hin.
    destruct Hin as [?|[?|[?|Hin]]]; try done. by apply (H3 p').
  - intros _. exists (length (api_responses s)). split; [|done].
    by exists (complete (length (api_responses s)) u).
  - intros [|j] Hj.
    + rewrite Nat.add_0_r. apply H4. intros ->. simpl in Hj. lia.
    + replace (length (client_requests s) + S j) with (S (length (client_requests s)) + j)
        by lia.
      apply H5. lia.
Qed.

(** X14: of calls of one identity that come in a row, all missing the cache,
    only the last one stays in the queue.  Every call before it is answered
    with a response of status 429 and empty text, in the order of the calls;
    the identity holds one place in the deque, as after a single call; the
    last call's unit is the one the queue holds, and it waits; and the
    backend is not called by any of this. *)
Theorem calls_in_a_row_are_coalesced acts A rq p rqs :
  let s := (exec key acts).1 in
  let all := (rq, p) :: rqs in
  let s' := (run key (calls all) s).1 in
  let base := length (client_requests s) in
  Forall (λ c, get_client_id c.1 = A ∧ response_cache s !! key c.2 = None) all →
  _client_items (queue s') !! A = Some (base + length rqs) ∧
  handle_request_resume (base + length rqs) s' = None ∧
  _queue (queue s') = _queue (queue (handle_request key rq p s).1) ∧
  (∀ p', Invoked p' ∉ (run key (calls all) s).2) ∧
  (∀ j, j < length rqs →
   ∃ l, handle_request_resume (base + j) s' = Some (Some l) ∧
        api_responses s' !! l = Some (generate_default_api_response "" 429)).
Proof.
  intros s all s' base Hall.
  destruct (exec_inv key acts) as [HI HT]. fold s in HI, HT.
  destruct (run_inv key (calls all) s _ HI HT) as [HI' _]. fold s' in HI'.
  destruct (handle_request_inv key rq p s _ HI HT) as [HI1 HT1].
  apply Forall_cons in Hall as [[Hid Hmiss] Hall]. simpl in Hid, Hmiss.
  pose proof (handle_request_submits rq p s Hmiss) as Hs1. simpl in Hs1. rewrite Hid in Hs1.
  assert (Hcur1 : _client_items (queue (handle_request key rq p s).1) !! A = Some base ∧
                  length (client_requests (handle_request key rq p s).1) = S base ∧
                  response_cache (handle_request key rq p s).1 = response_cache s ∧
                  ∀ p', Invoked p' ∉ (handle_request key rq p s).2).
  { rewrite Hs1. destruct (_client_items (queue s) !! A); simpl;
      rewrite lookup_insert_eq, ?length_alter, length_app; simpl;
      (split; [done|split; [lia|split; [done|intros; not_in_events]]]). }
  destruct Hcur1 as (Hcur1 & Hlen1 & Hcache1 & Hinv1).
  destruct (calls_exchange A rqs _ _ base HI1 HT1 Hcur1) as (H1 & H2 & H3 & H4 & H5).
  { eapply Forall_impl; [exact Hall|]. intros c [? ?]. by rewrite Hcache1. }
  subst s'. unfold all, calls in *. simpl in *.
  destruct (handle_request key rq p s) as [s1 evs1]. simpl in *.
  destruct (run key _ s1) as [s2 evs2]. simpl in *.
  rewrite Hlen1 in H1, H5.
  assert (Hlast : _client_items (queue s2) !! A = Some (base + length rqs)).
  { rewrite H1. f_equal. destruct rqs; simpl; lia. }
  split; [done|]. split; [|split; [done|split]].
  - apply resume_unset. destruct HI' as (_ & Hpend & _). apply Hpend. by exists A.
  - intros p' [?|?]%elem_of_app; [by eapply Hinv1|by eapply H3].
  - intros j Hj.
    assert (∃ l, completed_with (client_requests s2) (base + j) l ∧
                 api_responses s2 !! l = Some (generate_default_api_response "" 429))
      as (l & Hl & Hr).
    { destruct j as [|j].
      - rewrite Nat.add_0_r. apply H4. intros ->. simpl in Hj. lia.
      - replace (base + S j) with (S base + j) by lia. apply H5. lia. }
    exists l. split; [by apply resume_completed|done].
Qed.

(** X15: the cache is written by nothing but a backend call: over a run in
    which the backend is not called, whatever calls arrive, are answered
    from the cache or supersede one another, the cache dict stays as it
    is. *)
Theorem cache_changes_only_by_generation acts s :
  (∀ p, Invoked p ∉ (run key acts s).2) →
  response_cache (run key acts s).1 = response_cache s.
Proof.
  revert s. induction acts as [|act acts IH]; intros s Hno; simpl in *; [done|].
  assert (Hstep : (∀ p, Invoked p ∉ (step key act s).2) →
                  response_cache (step key act s).1 = response_cache s).
  { destruct act as [rq p| |outcome]; simpl.
    - intros _. unfold handle_request, alloc, retrieve.
      destruct (response_cache s !! key p); simpl; [done|].
      by destruct (put_or_exchange _ _ _) as [[old|] queue1].
    - intros _. unfold consumer_poll. destruct (consumer s); simpl; try done.
      destruct (get (queue s)) as [b q1| |q1]; simpl; try done.
      destruct (client_requests s !! b) as [v|]; simpl; [|done].
      unfold retrieve. by destruct (response_cache s !! key (request_payload v)).
    - unfold consumer_generate, alloc. destruct (consumer s) as [|b| |]; simpl; try done.
      destruct (client_requests s !! b) as [v|]; simpl; [|done].
      destruct outcome; simpl; try done.
      intros Hinv. destruct (Hinv (request_payload v)). in_events. }
  destruct (step key act s) as [s1 evs1]. simpl in *.
  specialize (IH s1). destruct (run key acts s1) as [s2 evs2]. simpl in *.
  rewrite IH, Hstep; [done| |].
  - intros p Hin. apply (Hno p), elem_of_app. by left.
  - intros p Hin. apply (Hno p), elem_of_app. by right.
Qed.
End HandlerExtras.

(** * Further properties of the queue *)

Section QueueExtras.
Context {Item : Type} (item_id : Item → string).
Implicit Types (q : ClientRequestQueue Item) (item : Item) (i : string).

Lemma get_turns_drain n : ∀ q,
  queue_wf item_id q →
  length (_queue q) = n →
  (queue_run item_id (replicate n GetTurn) q).1 = ClientRequestQueue_init ∧
  ∃ items,
    (queue_run item_id (replicate n GetTurn) q).2 = Taken <$> items ∧
    item_id <$> items = _queue q ∧
    ∀ item, item ∈ items → _client_items q !! item_id item = Some item.
Proof.
  induction n as [|n IH]; intros q Hwf Hlen; simpl.
  - apply nil_length_inv in Hlen. destruct Hwf as (_ & Hdom & _).
    split; [|exists []; split; [done|split; [done|by intros ? ?%elem_of_nil]]].
    destruct q as [fifo items]. simpl in *. subst fifo. unfold ClientRequestQueue_init.
    f_equal. apply map_empty. intros i. apply eq_None_not_Some.
    intros Hi%Hdom. by apply elem_of_nil in Hi.
  - destruct (get_wf item_id q Hwf) as [[Hq _]|(rest & item & Hq & Hitem & -> & Hwf1)].
    { by rewrite Hq in Hlen. }
    destruct (IH _ Hwf1) as (Hinit & items & Hhist & Hids & Hall).
    { rewrite Hq in Hlen. simpl in *. lia. }
    destruct (queue_run item_id (replicate n GetTurn) _) as [q2 evs]. simpl in *.
    split; [done|]. exists (item :: items). split; [by rewrite Hhist|].
    split; [by rewrite Hq, <- Hids|].
    intros item' [->|Hin]%elem_of_cons; [done|].
    apply Hall in Hin. by apply lookup_delete_Some in Hin as [_ ?].
Qed.

(** X13: nothing gets lost in the queue.  From any state the queue reaches,
    as many turns of [get] as the deque is long hand out one unit for each
    identity of the deque, in the order of the deque, each the unit the
    dict holds for that identity, and leave the deque and the dict empty,
    so that the next turn sleeps. *)
Theorem get_drains_in_order (history : list (QueueCall Item)) :
  let q := (queue_run item_id history ClientRequestQueue_init).1 in
  let drained := queue_run item_id (replicate (length (_queue q)) GetTurn) q in
  drained.1 = ClientRequestQueue_init ∧
  get drained.1 = Sleep ∧
  ∃ items,
    drained.2 = Taken <$> items ∧
    item_id <$> items = _queue q ∧
    ∀ item, item ∈ items → _client_items q !! item_id item = Some item.
Proof.
  intros q drained.
  destruct (queue_run_wf item_id history _ (queue_wf_init item_id)) as [Hwf _]. fold q in Hwf.
  destruct (get_turns_drain (length (_queue q)) q Hwf eq_refl) as (Hinit & Hitems).
  fold drained in Hinit, Hitems. split; [done|]. split; [by rewrite Hinit|done].
Qed.
End QueueExtras.

(** * The further properties at work *)

Lemma cache_entries_are_permanent_witness :
  let s := (exec fingerprint served_once).1 in
  let s' := (run fingerprint [Handle bob "p"; Handle alice "q"] s).1 in
  response_cache s !! "p" = Some 0 ∧
  api_responses s !! 0 = Some answer ∧
  response_cache s' !! "p" = Some 0.
Proof.
  intros s s'.
  assert (H1 : response_cache s !! "p" = Some 0) by (vm_compute; reflexivity).
  assert (H2 : api_responses s !! 0 = Some answer) by reflexivity.
  split; [exact H1|split; [exact H2|]].
  exact (proj1 (cache_entries_are_permanent fingerprint served_once
                  [Handle bob "p"; Handle alice "q"] "p" 0 answer H1 H2)).
Defined.

Lemma completed_units_are_terminal_witness :
  let s := (exec fingerprint served_once).1 in
  let s' := (run fingerprint [Handle alice "q"; Handle alice "r"] s).1 in
  client_requests s !! 0 = Some (complete 0 (ClientRequest_init alice "p" 1)) ∧
  handle_request_resume 0 s' = Some (Some 0).
Proof.
  intros s s'.
  assert (H1 : client_requests s !! 0 = Some (complete 0 (ClientRequest_init alice "p" 1)))
    by reflexivity.
  split; [exact H1|].
  exact (proj2 (completed_units_are_terminal fingerprint served_once
                  [Handle alice "q"; Handle alice "r"] 0 _ H1 eq_refl)).
Defined.

Lemma sequence_numbers_witness :
  let s := (exec fingerprint (served_once ++ [Handle bob "p"])).1 in
  client_requests s !! 1 = Some (ClientRequest_init bob "p" 2) ∧
  cnt (ClientRequest_init bob "p" 2) = 2 ∧
  cnt (ClientRequest_init bob "p" 2) ≤ handler_cnt s.
Proof.
  intros s.
  assert (H1 : client_requests s !! 1 = Some (ClientRequest_init bob "p" 2)) by reflexivity.
  split; [exact H1|].
  pose proof (proj1 (proj2 (proj2
    (sequence_numbers fingerprint (served_once ++ [Handle bob "p"])))) 1 _ H1) as Hthm.
  exact (conj (proj1 Hthm) (proj1 (proj2 Hthm))).
Defined.

Lemma generated_response_is_served_witness :
  let s := (exec fingerprint [Handle alice "p"; ConsumerPoll]).1 in
  let s2 := (run fingerprint [Handle bob "q"]
               (consumer_generate fingerprint (Generated answer) s).1).1 in
  consumer s = Generating 0 ∧
  (handle_request fingerprint bob "p" s2).2 = [Created 2; Returned 2 0].
Proof.
  intros s s2.
  assert (H1 : consumer s = Generating 0) by reflexivity.
  assert (H2 : client_requests s !! 0 = Some (ClientRequest_init alice "p" 1)) by reflexivity.
  split; [exact H1|].
  exact (proj1 (proj2 (generated_response_is_served fingerprint
                         [Handle alice "p"; ConsumerPoll] 0 _ answer [Handle bob "q"]
                         bob "p" H1 H2 eq_refl))).
Defined.

Lemma update_then_retrieve_witness :
  [answer] !! 0 = Some answer ∧
  (retrieve fingerprint "p" (update fingerprint "p" 0 ∅) [answer]).1 = Some 0.
Proof.
  assert (H1 : [answer] !! 0 = Some answer) by reflexivity.
  split; [exact H1|].
  exact (proj1 (proj1 (update_then_retrieve fingerprint "p" "p" 0 0 ∅ [answer] answer H1)
                  eq_refl)).
Defined.

Lemma anonymous_callers_supersede_each_other_witness :
  let s := (exec fingerprint []).1 in
  let s1 := (handle_request fingerprint anonymous "p" s).1 in
  host (client anonymous) ≠ host (client visitor) ∧
  ∃ l r,
    (handle_request fingerprint visitor "q" s1).2
      = [Created 1; Exchanged "" 1 0; Completed 0 l] ∧
    api_responses (handle_request fingerprint visitor "q" s1).1 !! l = Some r ∧
    status r = 429%Z ∧
    handle_request_resume 0 (handle_request fingerprint visitor "q" s1).1 = Some (Some l).
Proof.
  intros s s1. split; [discriminate|].
  assert (H1 : headers_get "authorization" (_headers anonymous) = None) by reflexivity.
  assert (H2 : headers_get "authorization" (_headers visitor) = None) by reflexivity.
  assert (H3 : response_cache s !! fingerprint "p" = None) by (vm_compute; reflexivity).
  assert (H4 : response_cache s !! fingerprint "q" = None) by (vm_compute; reflexivity).
  exact (anonymous_callers_supersede_each_other fingerprint [] anonymous visitor "p" "q"
           H1 H2 H3 H4).
Defined.

Lemma identity_runs_credential_and_host_together_witness :
  host (client carol) ≠ host (client dave) ∧
  get_client_id carol = get_client_id dave.
Proof.
  split; [discriminate|].
  apply (identity_runs_credential_and_host_together carol dave "tok" "1" "0.0.0.1");
    reflexivity.
Defined.

Lemma superseded_unit_is_never_dequeued_witness :
  let trace :=
    (exec fingerprint [Handle alice "p"; Handle alice "q"; ConsumerPoll;
                       ConsumerGenerate (Generated answer); ConsumerPoll]).2 in
  Exchanged "alice10.0.0.1" 1 0 ∈ trace ∧
  Dequeued "alice10.0.0.1" 0 ∉ trace.
Proof.
  intros trace.
  assert (H1 : Exchanged "alice10.0.0.1" 1 0 ∈ trace) by (vm_compute; in_events).
  split; [exact H1|].
  exact (superseded_unit_is_never_dequeued fingerprint _ "alice10.0.0.1" 1 0 H1
           "alice10.0.0.1").
Defined.

Lemma failed_consumer_serves_no_more_witness :
  let s := (exec fingerprint [Handle alice "p"; ConsumerPoll;
                              ConsumerGenerate OtherException]).1 in
  let s' := (run fingerprint [Handle bob "q"; ConsumerPoll] s).1 in
  consumer s = Failed 0 ∧
  consumer s' = Failed 0 ∧
  handle_request_resume 0 s' = None.
Proof.
  intros s s'.
  assert (H1 : consumer s = Failed 0) by reflexivity.
  pose proof (failed_consumer_serves_no_more fingerprint
                [Handle alice "p"; ConsumerPoll; ConsumerGenerate OtherException]
                [Handle bob "q"; ConsumerPoll] 0 H1) as Hthm.
  split; [exact H1|split].
  - exact (proj1 Hthm).
  - exact (proj2 (proj2 (proj2 (proj2 (proj2 Hthm))))).
Defined.

Lemma rejection_is_never_cached_witness :
  let s := (exec fingerprint [Handle alice "p"]).1 in
  let s' := (run fingerprint [ConsumerPoll; ConsumerGenerate (Generated answer); Handle bob "q"]
               (handle_request fingerprint alice "q" s).1).1 in
  _client_items (queue s) !! get_client_id alice = Some 0 ∧
  api_responses s' !! 0 = Some (generate_default_api_response "" 429).
Proof.
  intros s s'.
  assert (H1 : response_cache s !! fingerprint "q" = None) by (vm_compute; reflexivity).
  assert (H2 : _client_items (queue s) !! get_client_id alice = Some 0)
    by (vm_compute; reflexivity).
  split; [exact H2|].
  exact (proj1 (rejection_is_never_cached fingerprint [Handle alice "p"] alice "q" 0
                  [ConsumerPoll; ConsumerGenerate (Generated answer); Handle bob "q"]
                  H1 H2)).
Defined.

Lemma error_response_is_never_cached_witness :
  let s := (exec fingerprint [Handle alice "p"; ConsumerPoll]).1 in
  let s' := (run fingerprint [Handle bob "p"; ConsumerPoll]
               (consumer_generate fingerprint (GeneratorException "busy") s).1).1 in
  consumer s = Generating 0 ∧
  api_responses s' !! 0 = Some (generate_default_api_response "busy" 400).
Proof.
  intros s s'.
  assert (H1 : consumer s = Generating 0) by reflexivity.
  assert (H2 : client_requests s !! 0 = Some (ClientRequest_init alice "p" 1)) by reflexivity.
  split; [exact H1|].
  exact (proj1 (proj2 (error_response_is_never_cached fingerprint
                         [Handle alice "p"; ConsumerPoll] 0 _ "busy"
                         [Handle bob "p"; ConsumerPoll] H1 H2))).
Defined.

Lemma calls_in_a_row_are_coalesced_witness :
  let rqs := [(alice, "q"); (alice, "r")] in
  let s := (exec fingerprint []).1 in
  let s' := (run fingerprint (calls ((alice, "p") :: rqs)) s).1 in
  Forall (λ c, get_client_id c.1 = "alice10.0.0.1" ∧
               response_cache s !! fingerprint c.2 = None) ((alice, "p") :: rqs) ∧
  _client_items (queue s') !! "alice10.0.0.1" = Some 2.
Proof.
  intros rqs s s'.
  assert (H1 : Forall (λ c, get_client_id c.1 = "alice10.0.0.1" ∧
                            response_cache s !! fingerprint c.2 = None)
                 ((alice, "p") :: rqs)).
  { repeat constructor; vm_compute; reflexivity. }
  split; [exact H1|].
  exact (proj1 (calls_in_a_row_are_coalesced fingerprint [] "alice10.0.0.1" alice "p" rqs H1)).
Defined.

Lemma cache_changes_only_by_generation_witness :
  let s := (exec fingerprint served_once).1 in
  let acts := [Handle bob "p"; Handle alice "q"; Handle alice "r"; ConsumerPoll] in
  (∀ p, Invoked p ∉ (run fingerprint acts s).2) ∧
  response_cache (run fingerprint acts s).1 = response_cache s.
Proof.
  intros s acts.
  assert (H1 : ∀ p, Invoked p ∉ (run fingerprint acts s).2).
  { intros p. vm_compute. not_in_events. }
  split; [exact H1|].
  exact (cache_changes_only_by_generation fingerprint acts s H1).
Defined.

Lemma get_drains_in_order_witness :
  let history := [PutOrExchange ("A", 1); PutOrExchange ("B", 2); PutOrExchange ("A", 3)] in
  let q := (queue_run fst history ClientRequestQueue_init).1 in
  _queue q = ["A"; "B"] ∧
  (queue_run fst (replicate (length (_queue q)) GetTurn) q).1 = ClientRequestQueue_init.
Proof.
  intros history q. split; [reflexivity|].
  exact (proj1 (get_drains_in_order fst history)).
Defined.
